(** * grid_traversal: greedy movement planning on a grid with blocked cells

    A shallow embedding of [grid_traversal.c].  C [int] (32 bits) and [long]
    and [size_t] (64 bits) values are integers of [Z].  The one addition that can leave the range of [int],
    [max_path_len = movement_points + 1], is computed by [int_add], which is
    undefined on overflow; the loop invariant [walker_ok] bounds every other
    counter by [max_path_len] and every coordinate by the grid, so the
    remaining arithmetic is exact.  The heap arrays ([bool **blocked],
    [bool **visited], [int *path_r], [int *path_c]) are lists, and every
    array access is bounds-checked: an access outside the allocated storage
    is undefined behaviour in C and is [None] here.  A [Grid *] argument is a
    [Grid] value (the pointer is not null).  [create_grid] tests the result
    of each [malloc] and exits on failure, so it takes the heap's answers as
    an argument; [solve_path] never tests them, and its allocations are
    taken to succeed whenever the requested size is not negative. *)

From stdpp Require Import base option list gmap.
From Stdlib Require Import ZArith Ascii.

Local Open Scope Z_scope.
#[local] Set Warnings "-clear-no-such-hyp".

(** ** Memory: two-dimensional [bool] arrays and [int] arrays *)

Abbreviation matrix := (list (list bool)).

(** [m[r][c]] *)
Definition mget (m : matrix) (r c : Z) : option bool :=
  if (0 <=? r) && (0 <=? c)
  then row ← m !! Z.to_nat r; row !! Z.to_nat c
  else None.

(** [m[r][c] = v] *)
Definition mset (m : matrix) (r c : Z) (v : bool) : option matrix :=
  _ ← mget m r c;
  Some (alter (λ row, <[Z.to_nat c := v]> row) (Z.to_nat r) m).

(** [a[i] = v] for an [int *a] *)
Definition store (a : list Z) (i v : Z) : option (list Z) :=
  if (0 <=? i) && (i <? Z.of_nat (length a))
  then Some (<[Z.to_nat i := v]> a)
  else None.

(** [n] rows of [k] cells, all [false]; nothing is allocated for a
    non-positive size. *)
Definition fresh (n k : Z) : matrix :=
  replicate (Z.to_nat n) (replicate (Z.to_nat k) false).

(** The range of [int] (32 bits). *)
Definition INT_MAX : Z := 2147483647.
Definition INT_MIN : Z := -2147483648.

(** [a + b] on [int]: undefined when the sum is not representable. *)
Definition int_add (a b : Z) : option Z :=
  if (INT_MIN <=? a + b) && (a + b <=? INT_MAX) then Some (a + b) else None.

(** [a % b] on [int]: truncated remainder, undefined for [b = 0]. *)
Definition c_mod (a b : Z) : option Z :=
  if b =? 0 then None else Some (Z.rem a b).

(** ** The grid *)

Record Grid := mkGrid { rows : Z; cols : Z; blocked : matrix }.

Definition with_blocked (g : Grid) (m : matrix) : Grid :=
  mkGrid (rows g) (cols g) m.

(** [r >= 0 && r < rows && c >= 0 && c < cols] *)
Definition in_range (nrows ncols r c : Z) : bool :=
  (0 <=? r) && (r <? nrows) && (0 <=? c) && (c <? ncols).

Definition in_bounds (g : Grid) (r c : Z) : bool :=
  in_range (rows g) (cols g) r c.

(** The marking loop of [create_grid]: entries outside the grid are skipped. *)
Fixpoint mark_list (nrows ncols : Z) (m : matrix) (blocked_list : list (Z * Z))
  : option matrix :=
  match blocked_list with
  | [] => Some m
  | (r, c) :: rest =>
      if in_range nrows ncols r c
      then m' ← mset m r c true; mark_list nrows ncols m' rest
      else mark_list nrows ncols m rest
  end.

(** The heap's answers to the successive [malloc] calls of [create_grid]:
    call 0 asks for the [Grid], call 1 for the table of rows, call [2 + i]
    for row [i].  A negative count converts to a [size_t] above [2^63], a
    size no heap can serve. *)
Definition malloc_ok (heap : nat → bool) (k : nat) (count : Z) : bool :=
  (0 <=? count) && heap k.

(** A heap that serves every request of non-negative size. *)
Definition ample : nat → bool := λ _, true.

(** How [create_grid] ends: with a grid, or in [exit(1)]. *)
Inductive created :=
  | Created (g : Grid)
  | Exited.

(** The row loop of [create_grid]: each row is allocated and cleared; [None]
    when a row cannot be allocated. *)
Fixpoint alloc_rows (heap : nat → bool) (ncols : Z) (rs : list Z)
  : option matrix :=
  match rs with
  | [] => Some []
  | i :: rs' =>
      if malloc_ok heap (2 + Z.to_nat i) ncols
      then m ← alloc_rows heap ncols rs';
           Some (replicate (Z.to_nat ncols) false :: m)
      else None
  end.

(** [create_grid(rows, cols, blocked_count, blocked_list)]; the list carries
    its own length. *)
Definition create_grid (heap : nat → bool) (nrows ncols : Z)
    (blocked_list : list (Z * Z)) : option created :=
  if negb (malloc_ok heap 0 1) then Some Exited
  else if negb (malloc_ok heap 1 nrows) then Some Exited
  else match alloc_rows heap ncols (seqZ 0 nrows) with
       | None => Some Exited
       | Some m0 =>
           m ← mark_list nrows ncols m0 blocked_list;
           Some (Created (mkGrid nrows ncols m))
       end.

(** ** solve_path *)

(** What [solve_path] prints: the [Path:] line (absent, hence empty, when the
    grid has no free cell) and the number after [Unique squares visited:]. *)
Record report := Report { path : list (Z * Z); unique_squares : Z }.

(** Inner loop of the start scan: first free column of row [i]. *)
Fixpoint scan_cols (m : matrix) (i : Z) (js : list Z) : option (option Z) :=
  match js with
  | [] => Some None
  | j :: js' =>
      b ← mget m i j;
      if b : bool then scan_cols m i js' else Some (Some j)
  end.

(** Outer loop of the start scan; it stops once [start_r >= 0]. *)
Fixpoint scan_rows (g : Grid) (rs : list Z) : option (option (Z * Z)) :=
  match rs with
  | [] => Some None
  | i :: rs' =>
      f ← scan_cols (blocked g) i (seqZ 0 (cols g));
      match f with
      | Some j => Some (Some (i, j))
      | None => scan_rows g rs'
      end
  end.

Definition find_start (g : Grid) : option (option (Z * Z)) :=
  scan_rows g (seqZ 0 (rows g)).

(** The local variables of [solve_path] that the step loop updates. *)
Record walker := Walker {
  cr : Z;
  cc : Z;
  visited : matrix;
  path_r : list Z;
  path_c : list Z;
  pathLen : Z;
  unique_count : Z
}.

(** Direction vectors (up, right, down, left). *)
Definition dr : list Z := [-1; 0; 1; 0].
Definition dc : list Z := [0; 1; 0; -1].
Definition dirs : list (Z * Z) := zip dr dc.

(** Body of the Tier 1 [if]: move to the new cell [(nr, nc)]. *)
Definition enter (s : walker) (nr nc : Z) : option walker :=
  vis ← mset (visited s) nr nc true;
  pr ← store (path_r s) (pathLen s) nr;
  pc ← store (path_c s) (pathLen s) nc;
  Some (Walker nr nc vis pr pc (pathLen s + 1) (unique_count s + 1)).

(** Body of the Tier 2 [if]: move back to the visited cell [(nr, nc)]. *)
Definition step_back (s : walker) (nr nc : Z) : option walker :=
  pr ← store (path_r s) (pathLen s) nr;
  pc ← store (path_c s) (pathLen s) nc;
  Some (Walker nr nc (visited s) pr pc (pathLen s + 1) (unique_count s)).

(** Tier 1 loop over the directions [ds]: [Some None] is [moved == false]. *)
Fixpoint explore (g : Grid) (s : walker) (ds : list (Z * Z))
  : option (option walker) :=
  match ds with
  | [] => Some None
  | (di, dj) :: ds' =>
      let nr := cr s + di in
      let nc := cc s + dj in
      if in_bounds g nr nc then
        b ← mget (blocked g) nr nc;
        if b : bool then explore g s ds' else
          v ← mget (visited s) nr nc;
          if v : bool then explore g s ds' else Some <$> enter s nr nc
      else explore g s ds'
  end.

(** Tier 2, inner loop: the neighbours [(r2, c2)] of the visited cell
    [(nr, nc)]. *)
Fixpoint lookahead (g : Grid) (s : walker) (nr nc : Z) (ds : list (Z * Z))
  : option (option walker) :=
  match ds with
  | [] => Some None
  | (di, dj) :: ds' =>
      let r2 := nr + di in
      let c2 := nc + dj in
      if in_bounds g r2 c2 then
        b ← mget (blocked g) r2 c2;
        if b : bool then lookahead g s nr nc ds' else
          v ← mget (visited s) r2 c2;
          if v : bool then lookahead g s nr nc ds'
          else Some <$> step_back s nr nc
      else lookahead g s nr nc ds'
  end.

(** Tier 2, outer loop; it runs while [!moved]. *)
Fixpoint reposition (g : Grid) (s : walker) (ds : list (Z * Z))
  : option (option walker) :=
  match ds with
  | [] => Some None
  | (di, dj) :: ds' =>
      let nr := cr s + di in
      let nc := cc s + dj in
      if in_bounds g nr nc then
        b ← mget (blocked g) nr nc;
        if b : bool then reposition g s ds' else
          v ← mget (visited s) nr nc;
          if v : bool then
            m ← lookahead g s nr nc dirs;
            match m with
            | Some s' => Some (Some s')
            | None => reposition g s ds'
            end
          else reposition g s ds'
      else reposition g s ds'
  end.

(** One iteration of the step loop: [Some None] is the early [break]. *)
Definition step (g : Grid) (s : walker) : option (option walker) :=
  m ← explore g s dirs;
  match m with
  | Some s' => Some (Some s')
  | None => reposition g s dirs
  end.

(** The step loop, [n] iterations left. *)
Fixpoint walk (g : Grid) (n : nat) (s : walker) : option walker :=
  match n with
  | O => Some s
  | S n' =>
      m ← step g s;
      match m with
      | Some s' => walk g n' s'
      | None => Some s
      end
  end.

(** The first [pathLen] entries of the two path arrays, as printed. *)
Definition trail (s : walker) : list (Z * Z) :=
  take (Z.to_nat (pathLen s)) (zip (path_r s) (path_c s)).

(** State after the "Starting position" block.  The contents of freshly
    allocated [int] storage are unspecified; they are never read before being
    written and are 0 here. *)
Definition start_walker (g : Grid) (movement_points : Z) (start_r start_c : Z)
  : option walker :=
  max_path_len ← int_add movement_points 1;
  vis ← mset (fresh (rows g) (cols g)) start_r start_c true;
  pr ← store (replicate (Z.to_nat max_path_len) 0) 0 start_r;
  pc ← store (replicate (Z.to_nat max_path_len) 0) 0 start_c;
  Some (Walker start_r start_c vis pr pc 1 1).

Definition solve_path (g : Grid) (movement_points : Z) : option report :=
  st ← find_start g;
  match st with
  | None => Some (Report [] 0)
  | Some (start_r, start_c) =>
      s0 ← start_walker g movement_points start_r start_c;
      s ← walk g (Z.to_nat movement_points) s0;
      Some (Report (trail s) (unique_count s))
  end.

(** ** generate_blocked *)

Fixpoint count_cols (m : matrix) (r : Z) (cs : list Z) (n : Z) : option Z :=
  match cs with
  | [] => Some n
  | c :: cs' =>
      b ← mget m r c;
      count_cols m r cs' (if b : bool then n + 1 else n)
  end.

Fixpoint count_rows (m : matrix) (rs cs : list Z) (n : Z) : option Z :=
  match rs with
  | [] => Some n
  | r :: rs' => n' ← count_cols m r cs n; count_rows m rs' cs n'
  end.

(** [already_blocked] *)
Definition count_blocked (g : Grid) : option Z :=
  count_rows (blocked g) (seqZ 0 (rows g)) (seqZ 0 (cols g)) 0.

(** [available = total_cells - already_blocked] *)
Definition available (g : Grid) : option Z :=
  already_blocked ← count_blocked g;
  Some (rows g * cols g - already_blocked).

(** How far a run of the sampling loop got: it [Returned], or it is still
    [Sampling] (with [placed] cells marked so far) when the random values
    supplied are used up. *)
Inductive outcome :=
  | Returned (g : Grid)
  | Sampling (g : Grid) (placed : Z).

(** The rejection-sampling loop; [rnd] are the successive results of
    [rand()]. *)
Fixpoint place (g : Grid) (num_blocked placed : Z) (rnd : list Z) {struct rnd}
  : option outcome :=
  if placed <? num_blocked then
    match rnd with
    | x :: y :: rnd' =>
        r ← c_mod x (rows g);
        c ← c_mod y (cols g);
        b ← mget (blocked g) r c;
        if b : bool then place g num_blocked placed rnd'
        else
          m ← mset (blocked g) r c true;
          place (with_blocked g m) num_blocked (placed + 1) rnd'
    | _ => Some (Sampling g placed)
    end
  else Some (Returned g).

Definition generate_blocked (g : Grid) (num_blocked : Z) (rnd : list Z)
  : option outcome :=
  if num_blocked <=? 0 then Some (Returned g) else
    avail ← available g;
    if avail <=? 0 then Some (Returned g) else
      let num_blocked := if avail <? num_blocked then avail else num_blocked in
      place g num_blocked 0 rnd.

(** ** The demonstration grids of [main] *)

(** [solve_path] on the grid [create_grid] made; nothing is reported when
    [create_grid] has exited. *)
Definition solve_created (c : created) (movement_points : Z) : option report :=
  match c with
  | Created g => solve_path g movement_points
  | Exited => None
  end.

Definition test1 : option report :=
  c ← create_grid ample 1 1 []; solve_created c 1.
Definition test2 : option report :=
  c ← create_grid ample 2 2 [(0, 0); (0, 1); (1, 0); (1, 1)]; solve_created c 10.
Definition test3 : option report :=
  c ← create_grid ample 3 3 [(1, 0); (1, 1); (1, 2)]; solve_created c 5.
Definition test4 : option report :=
  c ← create_grid ample 5 5 []; solve_created c 30.

(** ** Specification vocabulary *)

(** A grid as [create_grid] builds it: positive dimensions and a
    [rows] x [cols] cell array. *)
Definition well_formed (g : Grid) : bool :=
  (0 <? rows g) && (0 <? cols g)
  && (Z.of_nat (length (blocked g)) =? rows g)
  && forallb (λ row, Z.of_nat (length row) =? cols g) (blocked g).

Definition Grid_wf (g : Grid) : Prop := well_formed g = true.

Definition shape (m : matrix) (R C : Z) : Prop :=
  Z.of_nat (length m) = R ∧ Forall (λ row, Z.of_nat (length row) = C) m.

(** In-bounds and not blocked. *)
Definition is_free (g : Grid) (p : Z * Z) : Prop :=
  in_bounds g p.1 p.2 = true ∧ mget (blocked g) p.1 p.2 = Some false.

Definition is_blocked (g : Grid) (p : Z * Z) : Prop :=
  mget (blocked g) p.1 p.2 = Some true.

(** In-bounds, free and not yet visited. *)
Definition unvisited (g : Grid) (s : walker) (p : Z * Z) : Prop :=
  is_free g p ∧ mget (visited s) p.1 p.2 = Some false.

(** In-bounds, free and already visited. *)
Definition seen (g : Grid) (s : walker) (p : Z * Z) : Prop :=
  is_free g p ∧ mget (visited s) p.1 p.2 = Some true.

(** The neighbour of [p] in direction [d]. *)
Definition shift (p d : Z * Z) : Z * Z := (p.1 + d.1, p.2 + d.2).

Definition here (s : walker) : Z * Z := (cr s, cc s).

(** A visited neighbour worth stepping back to: one of its own neighbours is
    unvisited. *)
Definition promising (g : Grid) (s : walker) (p : Z * Z) : Prop :=
  seen g s p ∧ ∃ d, d ∈ dirs ∧ unvisited g s (shift p d).

(** Row-major order on coordinates. *)
Definition row_major_le (p q : Z * Z) : Prop :=
  p.1 < q.1 ∨ (p.1 = q.1 ∧ p.2 <= q.2).

Definition first_free (g : Grid) (p : Z * Z) : Prop :=
  is_free g p ∧ ∀ q, is_free g q → row_major_le p q.

(** Orthogonal neighbours: exactly one coordinate differs, by exactly one. *)
Definition adjacent (p q : Z * Z) : Prop :=
  (Z.abs (p.1 - q.1) = 1 ∧ p.2 = q.2) ∨ (p.1 = q.1 ∧ Z.abs (p.2 - q.2) = 1).

Definition connected (l : list (Z * Z)) : Prop :=
  ∀ i p q, l !! i = Some p → l !! S i = Some q → adjacent p q.

(** Number of distinct coordinates in a path. *)
Definition distinct (l : list (Z * Z)) : Z :=
  Z.of_nat (size (list_to_set l : gset (Z * Z))).

(** Number of [true] cells of a row, and of a cell array. *)
Definition ones (row : list bool) : Z :=
  Z.of_nat (length (filter (λ b : bool, b = true) row)).

Definition tally (m : matrix) : Z := ones (concat m).

Definition grid_of (o : outcome) : Grid :=
  match o with Returned g => g | Sampling g _ => g end.

(** The states at the head of the step loop of [solve_path g mp]: [at_step g
    mp n s] says that [s] is the state when [step == n]. *)
Inductive at_step (g : Grid) (mp : Z) : nat → walker → Prop :=
  | at_first r c s0 :
      find_start g = Some (Some (r, c)) →
      start_walker g mp r c = Some s0 →
      at_step g mp 0 s0
  | at_next n s s' :
      at_step g mp n s →
      Z.of_nat n < mp →
      step g s = Some (Some s') →
      at_step g mp (S n) s'.

(** Every in-bounds cell of [g->blocked] can be read. *)
Definition readable (g : Grid) : Prop :=
  ∀ r c, in_bounds g r c = true → is_Some (mget (blocked g) r c).

(** The loop invariant of [solve_path]; [cap] is [max_path_len]. *)
Record walker_ok (g : Grid) (cap : Z) (s : walker) : Prop := {
  ok_shape : shape (visited s) (rows g) (cols g);
  ok_cap_r : Z.of_nat (length (path_r s)) = cap;
  ok_cap_c : Z.of_nat (length (path_c s)) = cap;
  ok_len : 1 <= pathLen s <= cap;
  ok_here : last (trail s) = Some (here s);
  ok_visited : ∀ p, mget (visited s) p.1 p.2 = Some true ↔ p ∈ trail s;
  ok_free : ∀ p, p ∈ trail s → is_free g p;
  ok_unique : unique_count s = distinct (trail s);
  ok_connected : connected (trail s)
}.

(** ** Concrete grids and states used in the examples *)

(** The grid of Test 3: a 3 x 3 board whose middle row is blocked. *)
Definition grid3 : Grid :=
  mkGrid 3 3 [[false; false; false]; [true; true; true]; [false; false; false]].

(** Its state on entry to the step loop with [movement_points = 5]. *)
Definition start3 : walker :=
  Walker 0 0 [[true; false; false]; [false; false; false]; [false; false; false]]
    [0; 0; 0; 0; 0; 0] [0; 0; 0; 0; 0; 0] 1 1.

(** A 2 x 3 board with a dead end at its top-right corner. *)
Definition grid_nook : Grid :=
  mkGrid 2 3 [[false; false; false]; [false; false; true]].

(** The state of [solve_path grid_nook 4] after two steps, in the corner. *)
Definition corner : walker :=
  Walker 0 2 [[true; true; true]; [false; false; false]]
    [0; 0; 0; 0; 0] [0; 1; 2; 0; 0] 3 3.

(** The 1 x 1 board of Test 1. *)
Definition grid1 : Grid := mkGrid 1 1 [[false]].

(** ** print_grid *)

(** ['#'] for a blocked cell, ['.'] for a free one. *)
Definition cell_char (b : bool) : ascii := if b then "#"%char else "."%char.

Definition newline : ascii := "010"%char.

(** The inner loop of [print_grid]: the characters written for row [r]. *)
Fixpoint print_cols (m : matrix) (r : Z) (cs : list Z) : option (list ascii) :=
  match cs with
  | [] => Some []
  | c :: cs' =>
      b ← mget m r c;
      rest ← print_cols m r cs';
      Some (cell_char b :: rest)
  end.

(** The outer loop: each row is followed by a newline. *)
Fixpoint print_rows (m : matrix) (rs cs : list Z) : option (list ascii) :=
  match rs with
  | [] => Some []
  | r :: rs' =>
      line ← print_cols m r cs;
      rest ← print_rows m rs' cs;
      Some (line ++ newline :: rest)
  end.

(** Everything [print_grid] writes to standard output, in order. *)
Definition print_grid (g : Grid) : option (list ascii) :=
  print_rows (blocked g) (seqZ 0 (rows g)) (seqZ 0 (cols g)).

(** ** Further vocabulary *)

(** A cell array drawn row by row. *)
Definition render (m : matrix) : list ascii :=
  concat (map (λ row, map cell_char row ++ [newline]) m).

(** Two states of the step loop that differ at most in the size of their
    path arrays. *)
Definition same_view (s1 s2 : walker) : Prop :=
  cr s1 = cr s2 ∧ cc s1 = cc s2 ∧ visited s1 = visited s2
  ∧ pathLen s1 = pathLen s2 ∧ unique_count s1 = unique_count s2
  ∧ trail s1 = trail s2.

(** At most every second entry of the path is a revisit: either the path
    is shorter than twice the count, or it is exactly that long and the
    current cell has an unvisited neighbour. *)
Definition thrifty (g : Grid) (s : walker) : Prop :=
  pathLen s <= 2 * unique_count s - 1
  ∨ (pathLen s <= 2 * unique_count s
     ∧ ∃ d, d ∈ dirs ∧ unvisited g s (shift (here s) d)).

(** Every pair of values drawn from the random source names a blocked
    cell. *)
Fixpoint all_rejected (g : Grid) (rnd : list Z) : Prop :=
  match rnd with
  | x :: y :: rnd' =>
      is_blocked g (Z.rem x (rows g), Z.rem y (cols g)) ∧ all_rejected g rnd'
  | _ => True
  end.

(** ** Memory lemmas *)

Section memory.
Implicit Types (m : matrix) (r c : Z) (v b : bool).

Lemma mget_unfold m r c b :
  mget m r c = Some b ↔
  0 <= r ∧ 0 <= c ∧ ∃ row, m !! Z.to_nat r = Some row ∧ row !! Z.to_nat c = Some b.
Proof.
  unfold mget. split.
  - destruct (0 <=? r) eqn:Hr, (0 <=? c) eqn:Hc; simpl; try done.
    intros H. apply bind_Some in H as (row & ? & ?).
    split_and!; [lia | lia | eauto].
  - intros (Hr & Hc & row & Hrow & Hb).
    rewrite (proj2 (Z.leb_le 0 r) Hr), (proj2 (Z.leb_le 0 c) Hc). simpl.
    by rewrite Hrow.
Qed.

Lemma mget_shape m R C r c :
  shape m R C → 0 <= r < R → 0 <= c < C → is_Some (mget m r c).
Proof.
  intros [Hlen Hrows] Hr Hc.
  destruct (lookup_lt_is_Some_2 m (Z.to_nat r)) as [row Hrow]; [lia |].
  assert (Z.of_nat (length row) = C) as Hl.
  { eapply (proj1 (Forall_lookup _ _) Hrows); eauto. }
  destruct (lookup_lt_is_Some_2 row (Z.to_nat c)) as [b Hb]; [lia |].
  exists b. apply mget_unfold. split_and!; [lia | lia | eauto].
Qed.

Lemma mget_inside m R C r c b :
  shape m R C → mget m r c = Some b → 0 <= r < R ∧ 0 <= c < C.
Proof.
  intros [Hlen Hrows] (Hr & Hc & row & Hrow & Hb)%mget_unfold.
  assert (Z.of_nat (length row) = C) as Hl.
  { eapply (proj1 (Forall_lookup _ _) Hrows); eauto. }
  apply lookup_lt_Some in Hrow, Hb. lia.
Qed.

Lemma mset_Some m r c v :
  is_Some (mget m r c) →
  mset m r c v = Some (alter (λ row, <[Z.to_nat c := v]> row) (Z.to_nat r) m).
Proof. intros [b Hb]. unfold mset. by rewrite Hb. Qed.

Lemma mset_inv m r c v m' :
  mset m r c v = Some m' →
  is_Some (mget m r c)
  ∧ m' = alter (λ row, <[Z.to_nat c := v]> row) (Z.to_nat r) m.
Proof.
  unfold mset. intros H. apply bind_Some in H as (b & Hb & [= <-]). eauto.
Qed.

Lemma mget_mset_eq m r c v m' : mset m r c v = Some m' → mget m' r c = Some v.
Proof.
  intros [[b Hb] ->]%mset_inv.
  apply mget_unfold in Hb as (Hr & Hc & row & Hrow & Hb).
  apply mget_unfold. split_and!; [done | done |].
  exists (<[Z.to_nat c := v]> row). split.
  - by rewrite list_lookup_alter_eq, Hrow.
  - apply list_lookup_insert_eq. by eapply lookup_lt_Some.
Qed.

Lemma mget_mset_ne m r c v m' r' c' :
  mset m r c v = Some m' → (r', c') ≠ (r, c) → mget m' r' c' = mget m r' c'.
Proof.
  intros [[b Hb] ->]%mset_inv Hne.
  apply mget_unfold in Hb as (Hr & Hc & row & Hrow & Hb).
  unfold mget. destruct ((0 <=? r') && (0 <=? c')) eqn:Hrc; [| done].
  apply andb_true_iff in Hrc as [Hr'%Z.leb_le Hc'%Z.leb_le].
  destruct (decide (r' = r)) as [-> | Hrr].
  - rewrite list_lookup_alter_eq, Hrow. simpl.
    apply list_lookup_insert_ne. intros ?. apply Hne. f_equal. lia.
  - rewrite list_lookup_alter_ne; [done | lia].
Qed.

Lemma mset_shape m R C r c v m' :
  mset m r c v = Some m' → shape m R C → shape m' R C.
Proof.
  intros [_ ->]%mset_inv [Hlen Hrows]. split.
  - by rewrite length_alter.
  - apply Forall_alter; [done |]. intros row _ Hl. by rewrite length_insert.
Qed.

Lemma fresh_shape R C : 0 <= R → 0 <= C → shape (fresh R C) R C.
Proof.
  intros HR HC. unfold fresh. split.
  - rewrite length_replicate. lia.
  - apply Forall_replicate. rewrite length_replicate. lia.
Qed.

Lemma mget_fresh R C r c b : mget (fresh R C) r c = Some b → b = false.
Proof.
  intros (_ & _ & row & Hrow & Hb)%mget_unfold. unfold fresh in Hrow.
  apply lookup_replicate in Hrow as [-> _].
  by apply lookup_replicate in Hb as [-> _].
Qed.

Lemma int_add_Some (x y : Z) :
  INT_MIN <= x + y <= INT_MAX → int_add x y = Some (x + y).
Proof.
  intros Hr. unfold int_add.
  by rewrite (proj2 (Z.leb_le INT_MIN _)), (proj2 (Z.leb_le _ INT_MAX)) by lia.
Qed.

Lemma int_add_inv (x y z : Z) :
  int_add x y = Some z → z = x + y ∧ INT_MIN <= x + y <= INT_MAX.
Proof.
  unfold int_add.
  destruct (INT_MIN <=? x + y) eqn:H0, (x + y <=? INT_MAX) eqn:H1; simpl; try done.
  intros [= <-]. apply Z.leb_le in H0, H1. done.
Qed.

Lemma store_Some (a : list Z) i x :
  0 <= i < Z.of_nat (length a) → store a i x = Some (<[Z.to_nat i := x]> a).
Proof.
  intros Hi. unfold store.
  rewrite (proj2 (Z.leb_le 0 i)), (proj2 (Z.ltb_lt i _)) by lia. done.
Qed.

Lemma store_inv (a a' : list Z) i x :
  store a i x = Some a' →
  0 <= i < Z.of_nat (length a) ∧ a' = <[Z.to_nat i := x]> a.
Proof.
  unfold store.
  destruct (0 <=? i) eqn:H0, (i <? Z.of_nat (length a)) eqn:H1; simpl; try done.
  intros [= <-]. apply Z.leb_le in H0. apply Z.ltb_lt in H1. done.
Qed.

Lemma well_formed_shape g :
  Grid_wf g → 0 < rows g ∧ 0 < cols g ∧ shape (blocked g) (rows g) (cols g).
Proof.
  unfold Grid_wf, well_formed. rewrite !andb_true_iff.
  intros [[[Hr Hc] Hl] Hf]. split_and!; [lia | lia |]. split; [lia |].
  apply Forall_forall. intros row Hin.
  rewrite forallb_forall in Hf. apply list_elem_of_In in Hin.
  specialize (Hf _ Hin). simpl in Hf. lia.
Qed.

Lemma in_bounds_spec g r c :
  in_bounds g r c = true ↔ 0 <= r < rows g ∧ 0 <= c < cols g.
Proof. unfold in_bounds, in_range. rewrite !andb_true_iff. lia. Qed.
End memory.

(** ** Start-cell selection *)

Section start.
Variable g : Grid.

Lemma Grid_wf_readable : Grid_wf g → readable g.
Proof.
  intros (_ & _ & Hs)%well_formed_shape r c Hin%in_bounds_spec.
  eapply mget_shape; [done | lia..].
Qed.

Lemma scan_cols_seqZ i a n :
  (∀ j, a <= j < a + n → is_Some (mget (blocked g) i j)) →
  (scan_cols (blocked g) i (seqZ a n) = Some None
   ∧ ∀ j, a <= j < a + n → mget (blocked g) i j = Some true)
  ∨ (∃ j, a <= j < a + n
        ∧ mget (blocked g) i j = Some false
        ∧ (∀ j', a <= j' < j → mget (blocked g) i j' = Some true)
        ∧ scan_cols (blocked g) i (seqZ a n) = Some (Some j)).
Proof.
  remember (Z.to_nat n) as k eqn:Hk. revert a n Hk.
  induction k as [| k IH]; intros a n Hk Hread.
  - rewrite seqZ_nil by lia. left. split; [done | lia].
  - rewrite seqZ_cons by lia. simpl.
    destruct (Hread a) as [b Hb]; [lia |]. rewrite Hb. simpl.
    destruct b.
    + destruct (IH (Z.succ a) (Z.pred n)) as [[-> Hall] | (j & ? & ? & Hlt & ->)];
        [lia | intros; apply Hread; lia | |].
      * left. split; [done |]. intros j Hj.
        destruct (decide (j = a)) as [-> | ?]; [done | apply Hall; lia].
      * right. exists j. split_and!; try done; try lia.
        intros j' Hj'.
        destruct (decide (j' = a)) as [-> | ?]; [done | apply Hlt; lia].
    + right. exists a. split_and!; try done; lia.
Qed.

Lemma scan_rows_seqZ a n :
  readable g → 0 <= a → a + n <= rows g →
  (scan_rows g (seqZ a n) = Some None
   ∧ ∀ i j, a <= i < a + n → 0 <= j < cols g →
       mget (blocked g) i j = Some true)
  ∨ (∃ i j, a <= i < a + n ∧ 0 <= j < cols g
        ∧ mget (blocked g) i j = Some false
        ∧ (∀ i' j', a <= i' < i → 0 <= j' < cols g →
             mget (blocked g) i' j' = Some true)
        ∧ (∀ j', 0 <= j' < j → mget (blocked g) i j' = Some true)
        ∧ scan_rows g (seqZ a n) = Some (Some (i, j))).
Proof.
  intros Hread. remember (Z.to_nat n) as k eqn:Hk. revert a n Hk.
  induction k as [| k IH]; intros a n Hk Ha Hn.
  - rewrite seqZ_nil by lia. left. split; [done | lia].
  - rewrite seqZ_cons by lia. simpl.
    destruct (scan_cols_seqZ a 0 (cols g))
      as [[-> Hrow] | (j & Hj & Hfree & Hlt & ->)]; simpl.
    { intros j Hj. apply Hread, in_bounds_spec. lia. }
    + destruct (IH (Z.succ a) (Z.pred n))
        as [[-> Hall] | (i & j & ? & ? & ? & Hrows & ? & ->)]; [lia.. | |].
      * left. split; [done |]. intros i j Hi Hj.
        destruct (decide (i = a)) as [-> | ?];
          [apply Hrow; lia | apply Hall; lia].
      * right. exists i, j. split_and!; try done; try lia.
        intros i' j' Hi' Hj'.
        destruct (decide (i' = a)) as [-> | ?];
          [apply Hrow; lia | apply Hrows; lia].
    + right. exists a, j. split_and!; try done; lia.
Qed.

Lemma find_start_cases :
  readable g →
  (find_start g = Some None
   ∧ ∀ r c, in_bounds g r c = true → mget (blocked g) r c = Some true)
  ∨ (∃ p, find_start g = Some (Some p) ∧ first_free g p).
Proof.
  intros Hread. unfold find_start.
  destruct (scan_rows_seqZ 0 (rows g) Hread)
    as [[-> Hall] | (i & j & Hi & Hj & Hfree & Hrows & Hcols & ->)];
    [lia | lia | |].
  - left. split; [done |]. intros r c Hin%in_bounds_spec. apply Hall; lia.
  - right. exists (i, j). split; [done |]. split.
    + split; [apply in_bounds_spec; simpl; lia | done].
    + intros [r c] [Hin%in_bounds_spec Hq]. simpl in *.
      unfold row_major_le. simpl.
      destruct (decide (r < i)) as [Hlt | ?].
      { rewrite Hrows in Hq by lia. done. }
      destruct (decide (r = i)) as [-> | ?]; [| lia].
      destruct (decide (c < j)) as [Hlt | ?]; [| lia].
      rewrite Hcols in Hq by lia. done.
Qed.
End start.

(** ** Paths *)

Section paths.
Implicit Types (l : list (Z * Z)) (p q : Z * Z).

Lemma connected_snoc l p q :
  connected l → last l = Some p → adjacent p q → connected (l ++ [q]).
Proof.
  intros Hl Hlast Hadj i a b Ha Hb.
  destruct (decide (S i < length l)%nat) as [Hlt | Hge].
  - rewrite lookup_app_l in Ha, Hb by lia. eauto.
  - assert (i < length l)%nat as Hi.
    { apply lookup_lt_Some in Ha, Hb. rewrite length_app in Ha, Hb.
      simpl in *. lia. }
    rewrite lookup_app_l in Ha by lia.
    rewrite lookup_app_r in Hb by lia.
    replace (S i - length l)%nat with 0%nat in Hb by lia.
    simpl in Hb. injection Hb as <-.
    rewrite last_lookup in Hlast.
    replace (pred (length l)) with i in Hlast by lia. congruence.
Qed.

Lemma distinct_snoc_new l q : q ∉ l → distinct (l ++ [q]) = distinct l + 1.
Proof.
  intros Hq. unfold distinct. rewrite list_to_set_snoc_L.
  rewrite size_union, size_singleton; [lia |].
  apply disjoint_singleton_r. by rewrite elem_of_list_to_set.
Qed.

Lemma distinct_snoc_old l q : q ∈ l → distinct (l ++ [q]) = distinct l.
Proof.
  intros Hq. unfold distinct. rewrite list_to_set_snoc_L.
  f_equal. f_equal. set_solver.
Qed.

Lemma first_fit_unique {A} (P : A → Prop) (ds ds1 ds2 : list A) x k y :
  ds = ds1 ++ x :: ds2 →
  (∀ z, z ∈ ds1 → ¬ P z) → P x →
  ds !! k = Some y → P y →
  (∀ j z, (j < k)%nat → ds !! j = Some z → ¬ P z) →
  x = y.
Proof.
  intros -> Hbefore Hx Hk Hy Hfirst.
  destruct (Nat.lt_total k (length ds1)) as [Hlt | [-> | Hgt]].
  - rewrite lookup_app_l in Hk by done.
    destruct (Hbefore y); [by eapply list_elem_of_lookup_2 | done].
  - rewrite list_lookup_middle in Hk by done. congruence.
  - destruct (Hfirst (length ds1) x); [done | | done].
    by rewrite list_lookup_middle.
Qed.

Lemma trail_push s x y pr pc :
  Z.of_nat (length (path_r s)) = Z.of_nat (length (path_c s)) →
  0 <= pathLen s →
  store (path_r s) (pathLen s) x = Some pr →
  store (path_c s) (pathLen s) y = Some pc →
  take (Z.to_nat (pathLen s + 1)) (zip pr pc) = trail s ++ [(x, y)].
Proof.
  intros Hlen Hn [Hr ->]%store_inv [Hc ->]%store_inv. unfold trail.
  replace (Z.to_nat (pathLen s + 1)) with (S (Z.to_nat (pathLen s))) by lia.
  rewrite <- insert_zip_with.
  assert (Z.to_nat (pathLen s) < length (zip (path_r s) (path_c s)))%nat.
  { rewrite length_zip_with. lia. }
  erewrite take_S_r; [| by apply list_lookup_insert_eq].
  by rewrite take_insert_ge.
Qed.

Lemma length_trail s :
  pathLen s <= Z.of_nat (length (path_r s)) →
  pathLen s <= Z.of_nat (length (path_c s)) →
  0 <= pathLen s →
  Z.of_nat (length (trail s)) = pathLen s.
Proof.
  intros. unfold trail. rewrite length_take, length_zip_with. lia.
Qed.
End paths.

(** ** The two kinds of move preserve the loop invariant *)

Section moves.
Variables (g : Grid) (cap : Z) (s : walker).
Hypothesis Hok : walker_ok g cap s.
Hypothesis Hroom : pathLen s < cap.

Lemma enter_ok p :
  unvisited g s p → adjacent (here s) p →
  ∃ s', enter s p.1 p.2 = Some s'
        ∧ here s' = p
        ∧ trail s' = trail s ++ [p]
        ∧ unique_count s' = unique_count s + 1
        ∧ mset (visited s) p.1 p.2 true = Some (visited s')
        ∧ walker_ok g cap s'.
Proof.
  intros [Hfree Hnew] Hadj. destruct Hok, p as [nr nc]. simpl in *.
  unfold enter.
  rewrite (mset_Some (visited s) nr nc true) by eauto. simpl.
  rewrite !store_Some by lia. simpl.
  eexists. split; [done |].
  assert (mset (visited s) nr nc true
          = Some (alter (λ row, <[Z.to_nat nc := true]> row)
                    (Z.to_nat nr) (visited s))) as Hset.
  { apply mset_Some. eauto. }
  assert (trail
            (Walker nr nc
               (alter (λ row, <[Z.to_nat nc := true]> row) (Z.to_nat nr) (visited s))
               (<[Z.to_nat (pathLen s) := nr]> (path_r s))
               (<[Z.to_nat (pathLen s) := nc]> (path_c s))
               (pathLen s + 1) (unique_count s + 1))
          = trail s ++ [(nr, nc)]) as Htrail.
  { unfold trail at 1. simpl.
    apply trail_push; [lia | lia | by apply store_Some; lia..]. }
  split_and!; try done.
  split; simpl; rewrite ?Htrail, ?length_insert; try lia.
  - by eapply mset_shape.
  - apply last_snoc.
  - intros q. rewrite elem_of_app, list_elem_of_singleton.
    destruct (decide (q = (nr, nc))) as [-> | Hne].
    + simpl. rewrite (mget_mset_eq _ _ _ _ _ Hset). naive_solver.
    + rewrite (mget_mset_ne _ _ _ _ _ q.1 q.2 Hset).
      * rewrite ok_visited0. naive_solver.
      * destruct q. simpl. done.
  - intros q [Hq | ->%list_elem_of_singleton]%elem_of_app; eauto.
  - rewrite distinct_snoc_new; [lia |].
    intros Hin%ok_visited0. simpl in Hin. congruence.
  - by eapply connected_snoc.
Qed.

Lemma step_back_ok p :
  seen g s p → adjacent (here s) p →
  ∃ s', step_back s p.1 p.2 = Some s'
        ∧ here s' = p
        ∧ trail s' = trail s ++ [p]
        ∧ unique_count s' = unique_count s
        ∧ visited s' = visited s
        ∧ walker_ok g cap s'.
Proof.
  intros [Hfree Hold] Hadj. destruct Hok, p as [nr nc]. simpl in *.
  unfold step_back. rewrite !store_Some by lia. simpl.
  eexists. split; [done |].
  assert (trail
            (Walker nr nc (visited s)
               (<[Z.to_nat (pathLen s) := nr]> (path_r s))
               (<[Z.to_nat (pathLen s) := nc]> (path_c s))
               (pathLen s + 1) (unique_count s))
          = trail s ++ [(nr, nc)]) as Htrail.
  { unfold trail at 1. simpl.
    apply trail_push; [lia | lia | by apply store_Some; lia..]. }
  assert ((nr, nc) ∈ trail s) as Hin by by apply ok_visited0.
  split_and!; try done.
  split; simpl; rewrite ?Htrail, ?length_insert; try lia; try done.
  - apply last_snoc.
  - intros q. rewrite ok_visited0, elem_of_app, list_elem_of_singleton.
    naive_solver.
  - intros q [Hq | ->%list_elem_of_singleton]%elem_of_app; eauto.
  - rewrite distinct_snoc_old; [lia | done].
  - by eapply connected_snoc.
Qed.
End moves.

(** ** The direction scans *)

Lemma adjacent_shift p d : d ∈ dirs → adjacent p (shift p d).
Proof.
  unfold dirs, dr, dc. simpl. rewrite !elem_of_cons, elem_of_nil.
  unfold adjacent, shift. intros [-> | [-> | [-> | [-> | []]]]]; simpl; lia.
Qed.

(** A first-fit scan [f] over a list: it answers [hit x] at the first [x]
    satisfying [P], and [miss] when there is none. *)
Lemma first_fit_cases {A B} (P : A → Prop) (f : list A → B) (hit : A → B)
    (miss : B) :
  (∀ x, P x ∨ ¬ P x) →
  f [] = miss →
  (∀ x l, P x → f (x :: l) = hit x) →
  (∀ x l, ¬ P x → f (x :: l) = f l) →
  ∀ l, (f l = miss ∧ ∀ x, x ∈ l → ¬ P x)
       ∨ (∃ l1 x l2, l = l1 ++ x :: l2 ∧ (∀ z, z ∈ l1 → ¬ P z) ∧ P x
                     ∧ f l = hit x).
Proof.
  intros Hdec Hnil Hhit Hskip l. induction l as [| x l IH].
  - left. split; [done |]. intros x Hx. by apply elem_of_nil in Hx.
  - destruct (Hdec x) as [Hx | Hx].
    + right. exists [], x, l. split_and!; [done | | done | by apply Hhit].
      intros z Hz. by apply elem_of_nil in Hz.
    + rewrite (Hskip _ _ Hx).
      destruct IH as [[-> Hall] | (l1 & y & l2 & -> & Hl1 & Hy & ->)].
      * left. split; [done |].
        intros z [-> | Hz]%elem_of_cons; [done | by apply Hall].
      * right. exists (x :: l1), y, l2. split_and!; [done | | done | done].
        intros z [-> | Hz]%elem_of_cons; [done | by apply Hl1].
Qed.

Section scans.
Variables (g : Grid) (s : walker).
Hypothesis Hwf : Grid_wf g.
Hypothesis Hvis : shape (visited s) (rows g) (cols g).

Lemma read_blocked p :
  in_bounds g p.1 p.2 = true → is_Some (mget (blocked g) p.1 p.2).
Proof. by apply Grid_wf_readable. Qed.

Lemma read_visited p :
  in_bounds g p.1 p.2 = true → is_Some (mget (visited s) p.1 p.2).
Proof.
  intros Hin%in_bounds_spec. eapply mget_shape; [done | lia..].
Qed.

Lemma unvisited_em p : unvisited g s p ∨ ¬ unvisited g s p.
Proof.
  unfold unvisited, is_free.
  destruct (in_bounds g p.1 p.2); [| naive_solver].
  destruct (mget (blocked g) p.1 p.2) as [[] |]; [naive_solver | | naive_solver].
  destruct (mget (visited s) p.1 p.2) as [[] |]; naive_solver.
Qed.

(** Tier 1 *)

Lemma explore_hit d ds :
  unvisited g s (shift (here s) d) →
  explore g s (d :: ds) = Some <$> enter s (cr s + d.1) (cc s + d.2).
Proof.
  destruct d as [di dj]. intros [[Hin Hb] Hv]. simpl in *.
  by rewrite Hin, Hb, Hv.
Qed.

Lemma explore_skip d ds :
  ¬ unvisited g s (shift (here s) d) →
  explore g s (d :: ds) = explore g s ds.
Proof.
  destruct d as [di dj]. intros Hno. simpl.
  destruct (in_bounds g (cr s + di) (cc s + dj)) eqn:Hin; [| done].
  destruct (read_blocked (cr s + di, cc s + dj) Hin) as [b Hb].
  destruct (read_visited (cr s + di, cc s + dj) Hin) as [v Hv].
  simpl in *. rewrite Hb. simpl. destruct b; [done |].
  rewrite Hv. simpl. destruct v; [done |].
  destruct Hno. by repeat split.
Qed.

Lemma explore_cases ds :
  (explore g s ds = Some None
   ∧ ∀ d, d ∈ ds → ¬ unvisited g s (shift (here s) d))
  ∨ (∃ ds1 d ds2, ds = ds1 ++ d :: ds2
       ∧ (∀ d', d' ∈ ds1 → ¬ unvisited g s (shift (here s) d'))
       ∧ unvisited g s (shift (here s) d)
       ∧ explore g s ds = Some <$> enter s (cr s + d.1) (cc s + d.2)).
Proof.
  apply (first_fit_cases (λ d, unvisited g s (shift (here s) d))
           (explore g s) (λ d, Some <$> enter s (cr s + d.1) (cc s + d.2))).
  - intros d. apply unvisited_em.
  - done.
  - intros d l. apply explore_hit.
  - intros d l. apply explore_skip.
Qed.

(** Tier 2, inner scan *)

Lemma lookahead_hit p d ds :
  unvisited g s (shift p d) →
  lookahead g s p.1 p.2 (d :: ds) = Some <$> step_back s p.1 p.2.
Proof.
  destruct d as [di dj]. intros [[Hin Hb] Hv]. simpl in *.
  by rewrite Hin, Hb, Hv.
Qed.

Lemma lookahead_skip p d ds :
  ¬ unvisited g s (shift p d) →
  lookahead g s p.1 p.2 (d :: ds) = lookahead g s p.1 p.2 ds.
Proof.
  destruct d as [di dj]. intros Hno. simpl.
  destruct (in_bounds g (p.1 + di) (p.2 + dj)) eqn:Hin; [| done].
  destruct (read_blocked (p.1 + di, p.2 + dj) Hin) as [b Hb].
  destruct (read_visited (p.1 + di, p.2 + dj) Hin) as [v Hv].
  simpl in *. rewrite Hb. simpl. destruct b; [done |].
  rewrite Hv. simpl. destruct v; [done |].
  destruct Hno. by repeat split.
Qed.

Lemma lookahead_cases p ds :
  (lookahead g s p.1 p.2 ds = Some None
   ∧ ∀ d, d ∈ ds → ¬ unvisited g s (shift p d))
  ∨ ((∃ d, d ∈ ds ∧ unvisited g s (shift p d))
     ∧ lookahead g s p.1 p.2 ds = Some <$> step_back s p.1 p.2).
Proof.
  destruct (first_fit_cases (λ d, unvisited g s (shift p d))
              (lookahead g s p.1 p.2) (λ _, Some <$> step_back s p.1 p.2)
              (Some None)) with (l := ds)
    as [? | (l1 & d & l2 & -> & _ & Hd & ->)].
  - intros d. apply unvisited_em.
  - done.
  - intros d l. apply lookahead_hit.
  - intros d l. apply lookahead_skip.
  - by left.
  - right. split; [| done]. exists d. split; [| done].
    apply elem_of_app. right. apply elem_of_cons. by left.
Qed.

(** Tier 2, outer scan *)

Lemma promising_em p : promising g s p ∨ ¬ promising g s p.
Proof.
  unfold promising, seen, is_free.
  destruct (in_bounds g p.1 p.2); [| naive_solver].
  destruct (mget (blocked g) p.1 p.2) as [[] |]; [naive_solver | | naive_solver].
  destruct (mget (visited s) p.1 p.2) as [[] |]; [| naive_solver..].
  destruct (lookahead_cases p dirs) as [[_ Hnone] | [Hsome _]]; naive_solver.
Qed.

Lemma reposition_hit d ds :
  promising g s (shift (here s) d) →
  reposition g s (d :: ds) = Some <$> step_back s (cr s + d.1) (cc s + d.2).
Proof.
  destruct d as [di dj]. intros [[[Hin Hb] Hv] Hnext]. simpl in *.
  rewrite Hin, Hb. simpl. rewrite Hv. simpl.
  destruct (lookahead_cases (cr s + di, cc s + dj) dirs)
    as [[_ Hnone] | [_ Hahead]]; [naive_solver |].
  simpl in Hahead. rewrite Hahead.
  by destruct (step_back s (cr s + di) (cc s + dj)).
Qed.

Lemma reposition_skip d ds :
  ¬ promising g s (shift (here s) d) →
  reposition g s (d :: ds) = reposition g s ds.
Proof.
  destruct d as [di dj]. intros Hno. simpl.
  destruct (in_bounds g (cr s + di) (cc s + dj)) eqn:Hin; [| done].
  destruct (read_blocked (cr s + di, cc s + dj) Hin) as [b Hb].
  destruct (read_visited (cr s + di, cc s + dj) Hin) as [v Hv].
  simpl in *. rewrite Hb. simpl. destruct b; [done |].
  rewrite Hv. simpl. destruct v; [| done].
  destruct (lookahead_cases (cr s + di, cc s + dj) dirs)
    as [[Hahead _] | [Hsome _]].
  - simpl in Hahead. by rewrite Hahead.
  - destruct Hno. by repeat split.
Qed.

Lemma reposition_cases ds :
  (reposition g s ds = Some None
   ∧ ∀ d, d ∈ ds → ¬ promising g s (shift (here s) d))
  ∨ (∃ ds1 d ds2, ds = ds1 ++ d :: ds2
       ∧ (∀ d', d' ∈ ds1 → ¬ promising g s (shift (here s) d'))
       ∧ promising g s (shift (here s) d)
       ∧ reposition g s ds
         = Some <$> step_back s (cr s + d.1) (cc s + d.2)).
Proof.
  apply (first_fit_cases (λ d, promising g s (shift (here s) d))
           (reposition g s)
           (λ d, Some <$> step_back s (cr s + d.1) (cc s + d.2))).
  - intros d. apply promising_em.
  - done.
  - intros d l. apply reposition_hit.
  - intros d l. apply reposition_skip.
Qed.
End scans.

(** ** The step loop *)

Section loop.
Variable g : Grid.
Hypothesis Hwf : Grid_wf g.

Lemma pathLen_trail cap s :
  walker_ok g cap s → Z.of_nat (length (trail s)) = pathLen s.
Proof. intros []. apply length_trail; lia. Qed.

Lemma step_cases cap s :
  walker_ok g cap s → pathLen s < cap →
  (step g s = Some None
   ∧ (∀ d, d ∈ dirs → ¬ unvisited g s (shift (here s) d))
   ∧ (∀ d, d ∈ dirs → ¬ promising g s (shift (here s) d)))
  ∨ (∃ s' p, step g s = Some (Some s')
       ∧ trail s' = trail s ++ [p]
       ∧ pathLen s' = pathLen s + 1
       ∧ walker_ok g cap s').
Proof.
  intros Hok Hroom.
  assert (step g s = match explore g s dirs with
                     | Some (Some s') => Some (Some s')
                     | Some None => reposition g s dirs
                     | None => None
                     end) as -> by (unfold step; by destruct (explore _ _ _) as [[] |]).
  pose proof (ok_shape _ _ _ Hok) as Hvis.
  assert (∀ s' p, trail s' = trail s ++ [p] → walker_ok g cap s' →
                  pathLen s' = pathLen s + 1) as Hlen.
  { intros s' p Ht Hok'.
    rewrite <- (pathLen_trail cap s'), <- (pathLen_trail cap s) by done.
    rewrite Ht, length_app. simpl. lia. }
  destruct (explore_cases g s Hwf Hvis dirs)
    as [[-> Hnone] | (ds1 & d & ds2 & Hds & _ & Hd & ->)].
  - destruct (reposition_cases g s Hwf Hvis dirs)
      as [[-> Hnone'] | (ds1 & d & ds2 & Hds & _ & Hd & ->)].
    + by left.
    + destruct (step_back_ok g cap s Hok Hroom (shift (here s) d))
        as (s' & Hs' & _ & Ht & _ & _ & Hok'); [by destruct Hd | |].
      { apply adjacent_shift. rewrite Hds, elem_of_app, elem_of_cons. auto. }
      simpl in Hs'. rewrite Hs'. right. exists s', (shift (here s) d). eauto.
  - destruct (enter_ok g cap s Hok Hroom (shift (here s) d))
      as (s' & Hs' & _ & Ht & _ & _ & Hok'); [done | |].
    { apply adjacent_shift. rewrite Hds, elem_of_app, elem_of_cons. auto. }
    simpl in Hs'. rewrite Hs'. right. exists s', (shift (here s) d). eauto.
Qed.

Lemma walk_ok cap n s :
  walker_ok g cap s → pathLen s + Z.of_nat n <= cap →
  ∃ s', walk g n s = Some s'
        ∧ walker_ok g cap s'
        ∧ pathLen s' <= pathLen s + Z.of_nat n
        ∧ ∃ l, trail s' = trail s ++ l.
Proof.
  revert s. induction n as [| n IH]; intros s Hok Hroom; simpl.
  - exists s. split_and!; [done | done | lia |]. exists []. by rewrite app_nil_r.
  - destruct (step_cases cap s Hok) as [(-> & _) | (s1 & p & -> & Ht & Hlen & Hok1)];
      [lia | |]; simpl.
    + exists s. split_and!; [done | done | lia |]. exists []. by rewrite app_nil_r.
    + destruct (IH s1 Hok1) as (s' & Hw & Hok' & Hlen' & l & Hl); [lia |].
      exists s'. split_and!; [done | done | lia |].
      exists (p :: l). by rewrite Hl, Ht, <- app_assoc.
Qed.

Lemma distinct_singleton (p : Z * Z) : distinct [p] = 1.
Proof.
  change [p] with ([] ++ [p]). rewrite distinct_snoc_new.
  - done.
  - apply not_elem_of_nil.
Qed.

Lemma start_walker_inv mp p s0 :
  is_free g p → start_walker g mp p.1 p.2 = Some s0 →
  0 <= mp < INT_MAX ∧ trail s0 = [p] ∧ pathLen s0 = 1 ∧ unique_count s0 = 1
  ∧ walker_ok g (mp + 1) s0.
Proof.
  destruct p as [r c]. intros Hfree. unfold start_walker. simpl.
  intros (n & [-> Hn]%int_add_inv & Hrest)%bind_Some. revert Hrest.
  intros (vis & Hvis & (pr & Hpr & (pc & Hpc & [= <-])%bind_Some)%bind_Some)%bind_Some.
  apply store_inv in Hpr as [Hcap ->]. apply store_inv in Hpc as [_ ->].
  rewrite length_replicate in Hcap.
  destruct (well_formed_shape g Hwf) as (Hrows & Hcols & _).
  assert (trail (Walker r c vis (<[Z.to_nat 0:=r]> (replicate (Z.to_nat (mp + 1)) 0))
                   (<[Z.to_nat 0:=c]> (replicate (Z.to_nat (mp + 1)) 0)) 1 1)
          = [(r, c)]) as Htrail.
  { unfold trail. simpl.
    destruct (Z.to_nat (mp + 1)) as [| k] eqn:Hk; [lia |]. simpl.
    by destruct (zip _ _). }
  split_and!; [lia | lia | done.. |].
  split; simpl; rewrite ?Htrail, ?length_insert, ?length_replicate; try lia.
  - eapply mset_shape; [done |]. apply fresh_shape; lia.
  - done.
  - intros q. rewrite list_elem_of_singleton.
    destruct (decide (q = (r, c))) as [-> | Hne].
    + simpl. rewrite (mget_mset_eq _ _ _ _ _ Hvis). done.
    + rewrite (mget_mset_ne _ _ _ _ _ q.1 q.2 Hvis) by (by destruct q).
      split; [| done]. by intros ?%mget_fresh.
  - by intros q ->%list_elem_of_singleton.
  - by rewrite distinct_singleton.
  - intros i a b Ha Hb. apply lookup_lt_Some in Hb. simpl in Hb. lia.
Qed.

Lemma start_walker_total mp p :
  is_free g p → 0 <= mp < INT_MAX → is_Some (start_walker g mp p.1 p.2).
Proof.
  intros [Hin%in_bounds_spec _] Hmp. unfold start_walker.
  rewrite (int_add_Some mp 1) by (unfold INT_MIN; lia). simpl.
  rewrite mset_Some; simpl.
  - rewrite !store_Some by (rewrite length_replicate; lia). by eexists.
  - eapply mget_shape; [apply fresh_shape; lia | lia..].
Qed.

Lemma find_start_first p :
  find_start g = Some (Some p) → first_free g p.
Proof.
  intros Hp.
  destruct (find_start_cases g (Grid_wf_readable g Hwf))
    as [[Hnone _] | (q & Hq & Hfirst)]; congruence.
Qed.

(** Every state at the head of the step loop satisfies the invariant. *)
Lemma at_step_ok mp n s :
  at_step g mp n s →
  walker_ok g (mp + 1) s ∧ pathLen s = Z.of_nat n + 1.
Proof.
  induction 1 as [r c s0 Hstart Hs0 | n s s' _ [Hok Hlen] Hn Hstep].
  - apply find_start_first in Hstart as [Hfree _].
    destruct (start_walker_inv mp (r, c) s0 Hfree Hs0) as (_ & _ & -> & _ & ?).
    done.
  - destruct (step_cases (mp + 1) s Hok)
      as [[Hnone _] | (s1 & p & Hs1 & _ & Hlen1 & Hok1)]; [lia | congruence |].
    assert (s1 = s') as -> by congruence. split; [done | lia].
Qed.

(** From a state at the head of the loop, [solve_path] needs only the
    remaining iterations. *)
Lemma solve_path_from mp n s :
  at_step g mp n s →
  solve_path g mp
  = (s' ← walk g (Z.to_nat mp - n) s; Some (Report (trail s') (unique_count s'))).
Proof.
  induction 1 as [r c s0 Hstart Hs0 | n s s' _ IH Hn Hstep].
  - unfold solve_path. rewrite Hstart. simpl. rewrite Hs0. simpl.
    by rewrite Nat.sub_0_r.
  - rewrite IH.
    replace (Z.to_nat mp - n)%nat with (S (Z.to_nat mp - S n)) by lia.
    simpl. by rewrite Hstep.
Qed.

Lemma solve_path_cases mp :
  0 <= mp < INT_MAX →
  (solve_path g mp = Some (Report [] 0)
   ∧ ∀ r c, in_bounds g r c = true → mget (blocked g) r c = Some true)
  ∨ (∃ p l s, first_free g p
       ∧ solve_path g mp = Some (Report (trail s) (unique_count s))
       ∧ trail s = p :: l
       ∧ walker_ok g (mp + 1) s).
Proof.
  intros Hmp. unfold solve_path.
  destruct (find_start_cases g (Grid_wf_readable g Hwf))
    as [[-> Hall] | (p & -> & Hfirst)]; simpl.
  - by left.
  - right. destruct p as [r c].
    destruct (start_walker_total mp (r, c)) as [s0 Hs0]; [apply Hfirst | done |].
    simpl in Hs0. rewrite Hs0. simpl.
    destruct (start_walker_inv mp (r, c) s0) as (_ & Ht & Hlen & _ & Hok);
      [apply Hfirst | done |].
    destruct (walk_ok (mp + 1) (Z.to_nat mp) s0 Hok)
      as (s & -> & Hok' & _ & l & Hl); [lia |].
    exists (r, c), l, s. simpl. split_and!; try done. by rewrite Hl, Ht.
Qed.

(** A report with a path is only printed for a budget whose
    [max_path_len] is representable. *)
Lemma solve_path_Some mp rep :
  solve_path g mp = Some rep →
  (rep = Report [] 0 ∧ find_start g = Some None) ∨ 0 <= mp < INT_MAX.
Proof.
  unfold solve_path.
  destruct (find_start_cases g (Grid_wf_readable g Hwf))
    as [[-> _] | (p & -> & [Hfree _])]; simpl.
  - intros [= <-]. by left.
  - destruct p as [r c].
    destruct (start_walker g mp r c) as [s0 |] eqn:Hs0; [| done].
    intros _. right.
    by destruct (start_walker_inv mp (r, c) s0 Hfree Hs0) as [? _].
Qed.

Lemma solve_path_report mp rep :
  solve_path g mp = Some rep →
  rep = Report [] 0
  ∨ ∃ s, rep = Report (trail s) (unique_count s) ∧ walker_ok g (mp + 1) s.
Proof.
  intros Hrep.
  destruct (solve_path_Some mp rep Hrep) as [[-> _] | Hmp]; [by left |].
  destruct (solve_path_cases mp Hmp)
    as [[Heq _] | (p & l & s & _ & Heq & _ & Hok)];
    rewrite Heq in Hrep; injection Hrep as <-; eauto.
Qed.

Lemma solve_path_total mp :
  0 <= mp < INT_MAX → is_Some (solve_path g mp).
Proof.
  intros Hmp.
  destruct (solve_path_cases mp Hmp)
    as [[-> _] | (p & l & s & _ & -> & _ & Hok)]; by eexists.
Qed.
End loop.

(** ** Properties of [solve_path] *)

Example test1_output : test1 = Some (Report [(0, 0)] 1).
Proof. reflexivity. Qed.

Example test4_output :
  test4
  = Some (Report [(0, 0); (0, 1); (0, 2); (0, 3); (0, 4);
                  (1, 4); (2, 4); (3, 4); (4, 4); (4, 3);
                  (3, 3); (2, 3); (1, 3); (1, 2); (2, 2);
                  (3, 2); (4, 2); (4, 1); (3, 1); (2, 1);
                  (1, 1); (1, 0); (2, 0); (3, 0); (4, 0)] 25).
Proof. vm_compute. reflexivity. Qed.

Example create_grid_test3 :
  create_grid ample 3 3 [(1, 0); (1, 1); (1, 2)] = Some (Created grid3).
Proof. reflexivity. Qed.

Example at_step_start3 : at_step grid3 5 0 start3.
Proof. by eapply at_first. Qed.

Example at_step_corner : at_step grid_nook 4 2 corner.
Proof.
  eapply at_next; [eapply at_next; [by eapply at_first | lia | reflexivity] | lia |].
  reflexivity.
Qed.

Example solve_path_nook :
  solve_path grid_nook 4
  = Some (Report [(0, 0); (0, 1); (0, 2); (0, 1); (1, 1)] 4).
Proof. reflexivity. Qed.

(** C1 (as the code has it): on a grid with positive dimensions and at least
    one free cell, and for every movement budget [0 <= mp < INT_MAX],
    [solve_path] prints a non-empty path whose first element is the first
    free cell in row-major order. *)
Theorem plan_starts_at_first_free (g : Grid) (mp : Z) (q : Z * Z) :
  Grid_wf g → 0 <= mp < INT_MAX → is_free g q →
  ∃ rep p rest,
    solve_path g mp = Some rep ∧ path rep = p :: rest ∧ first_free g p.
Proof.
  intros Hwf Hmp [Hin Hq].
  destruct (solve_path_cases g Hwf mp Hmp)
    as [[_ Hall] | (p & l & s & Hfirst & -> & Ht & _)].
  - rewrite Hall in Hq by done. done.
  - exists (Report (trail s) (unique_count s)), p, l. by simpl.
Qed.

Lemma plan_starts_at_first_free_witness :
  ∃ rep p rest,
    solve_path grid3 5 = Some rep ∧ path rep = p :: rest ∧ first_free grid3 p.
Proof.
  apply (plan_starts_at_first_free grid3 5 (2, 2));
    [reflexivity | unfold INT_MAX; lia | split; reflexivity].
Defined.

(** C1 as stated fails at [movement_points = INT_MAX]: the grid is well
    formed and has a free cell, the budget is not negative, but
    [max_path_len = movement_points + 1] is not representable and no path is
    printed. *)
Lemma plan_budget_overflow :
  Grid_wf grid1 ∧ 0 <= INT_MAX ∧ is_free grid1 (0, 0)
  ∧ solve_path grid1 INT_MAX = None
  ∧ ¬ ∃ rep p rest,
        solve_path grid1 INT_MAX = Some rep ∧ path rep = p :: rest
        ∧ first_free grid1 p.
Proof.
  split_and!; [reflexivity | done | split; reflexivity | reflexivity |].
  intros (rep & p & rest & Hrep & _). discriminate Hrep.
Qed.

Lemma step_explore g s s' :
  explore g s dirs = Some (Some s') → step g s = Some (Some s').
Proof. intros H. unfold step. by rewrite H. Qed.

Lemma step_reposition g s :
  explore g s dirs = Some None → step g s = reposition g s dirs.
Proof. intros H. unfold step. by rewrite H. Qed.

Lemma dirs_eq : dirs = [(-1, 0); (0, 1); (1, 0); (0, -1)].
Proof. reflexivity. Qed.

(** C2: at every iteration of the step loop of [solve_path], Tier 1 looks at
    the neighbours in the order up, right, down, left; the first one that is
    in-bounds, free and unvisited becomes the current cell, is appended to
    the path and marked visited, and [unique_count] grows by one.
    [solve_path] goes on from that state, and the cell is entry [n + 1] of
    the path it prints. *)
Theorem tier1_first_fit (g : Grid) (mp : Z) (n : nat) (s : walker)
    (k : nat) (d : Z * Z) :
  Grid_wf g → at_step g mp n s → Z.of_nat n < mp →
  dirs !! k = Some d →
  unvisited g s (shift (here s) d) →
  (∀ j d', (j < k)%nat → dirs !! j = Some d' →
           ¬ unvisited g s (shift (here s) d')) →
  dirs = [(-1, 0); (0, 1); (1, 0); (0, -1)]
  ∧ ∃ s', step g s = Some (Some s')
      ∧ at_step g mp (S n) s'
      ∧ here s' = shift (here s) d
      ∧ trail s' = trail s ++ [shift (here s) d]
      ∧ (∀ q, mget (visited s') q.1 q.2
              = if decide (q = shift (here s) d) then Some true
                else mget (visited s) q.1 q.2)
      ∧ unique_count s' = unique_count s + 1
      ∧ solve_path g mp
        = (s'' ← walk g (Z.to_nat mp - S n) s';
           Some (Report (trail s'') (unique_count s'')))
      ∧ ∃ rep, solve_path g mp = Some rep
          ∧ trail s' `prefix_of` path rep
          ∧ path rep !! S n = Some (shift (here s) d).
Proof.
  intros Hwf Hat Hn Hk Hd Hfirst. split; [apply dirs_eq |].
  destruct (at_step_ok g Hwf mp n s Hat) as [Hok Hlen].
  destruct (explore_cases g s Hwf (ok_shape _ _ _ Hok) dirs)
    as [[_ Hnone] | (ds1 & d0 & ds2 & Hds & Hds1 & Hd0 & Hex)].
  { destruct (Hnone d); [by eapply list_elem_of_lookup_2 | done]. }
  assert (d0 = d) as ->.
  { by eapply (first_fit_unique (λ d, unvisited g s (shift (here s) d))). }
  destruct (enter_ok g (mp + 1) s Hok) with (p := shift (here s) d)
    as (s' & Hs' & Hhere & Ht & Hu & Hset & _); [lia | done | |].
  { apply adjacent_shift. by eapply list_elem_of_lookup_2. }
  simpl in Hs', Hset. rewrite Hs' in Hex.
  assert (step g s = Some (Some s')) as Hstep by by apply step_explore.
  assert (at_step g mp (S n) s') as Hat' by by eapply at_next.
  pose proof (solve_path_from g mp (S n) s' Hat') as Hfrom.
  exists s'. split_and!; try done.
  - intros q. case_decide as Hq.
    + subst q. apply (mget_mset_eq _ _ _ _ _ Hset).
    + apply (mget_mset_ne _ _ _ _ _ _ _ Hset). by destruct q.
  - destruct (at_step_ok g Hwf mp (S n) s' Hat') as [Hok' Hlen'].
    destruct (walk_ok g Hwf (mp + 1) (Z.to_nat mp - S n) s' Hok')
      as (s'' & Hs'' & _ & _ & l & Hl); [lia |].
    rewrite Hs'' in Hfrom. simpl in Hfrom.
    eexists. split; [done |]. simpl. split; [by exists l |].
    rewrite Hl, Ht.
    pose proof (pathLen_trail g (mp + 1) s Hok) as Hlt.
    rewrite lookup_app_l by (rewrite length_app; simpl; lia).
    apply list_lookup_middle. lia.
Qed.

Lemma tier1_first_fit_witness :
  dirs = [(-1, 0); (0, 1); (1, 0); (0, -1)]
  ∧ ∃ s', step grid3 start3 = Some (Some s')
      ∧ at_step grid3 5 1 s'
      ∧ here s' = (0, 1)
      ∧ trail s' = [(0, 0); (0, 1)]
      ∧ (∀ q, mget (visited s') q.1 q.2
              = if decide (q = (0, 1)) then Some true
                else mget (visited start3) q.1 q.2)
      ∧ unique_count s' = 2
      ∧ solve_path grid3 5
        = (s'' ← walk grid3 (Z.to_nat 5 - 1) s';
           Some (Report (trail s'') (unique_count s'')))
      ∧ ∃ rep, solve_path grid3 5 = Some rep
          ∧ trail s' `prefix_of` path rep
          ∧ path rep !! 1%nat = Some (0, 1).
Proof.
  apply (tier1_first_fit grid3 5 0 start3 1 (0, 1)).
  - reflexivity.
  - eapply at_first; reflexivity.
  - lia.
  - reflexivity.
  - repeat split; reflexivity.
  - intros j d' Hj Hd'. destruct j; [| lia]. injection Hd' as <-.
    intros [[Hin _] _]. discriminate Hin.
Defined.

(** C3: when Tier 1 finds no move, Tier 2 looks at the neighbours in the
    same order; the first one that is in-bounds, free and visited and has an
    in-bounds, free, unvisited neighbour of its own becomes the current cell
    and is appended to the path again, with [visited] and [unique_count]
    unchanged.  When no neighbour qualifies either, the loop stops and
    [solve_path] prints the path walked so far. *)
Theorem tier2_reposition (g : Grid) (mp : Z) (n : nat) (s : walker) :
  Grid_wf g → at_step g mp n s → Z.of_nat n < mp →
  (∀ d, d ∈ dirs → ¬ unvisited g s (shift (here s) d)) →
  (∀ k d,
      dirs !! k = Some d →
      promising g s (shift (here s) d) →
      (∀ j d', (j < k)%nat → dirs !! j = Some d' →
               ¬ promising g s (shift (here s) d')) →
      ∃ s', step g s = Some (Some s')
        ∧ at_step g mp (S n) s'
        ∧ here s' = shift (here s) d
        ∧ shift (here s) d ∈ trail s
        ∧ trail s' = trail s ++ [shift (here s) d]
        ∧ visited s' = visited s
        ∧ unique_count s' = unique_count s)
  ∧ ((∀ d, d ∈ dirs → ¬ promising g s (shift (here s) d)) →
     step g s = Some None
     ∧ solve_path g mp = Some (Report (trail s) (unique_count s))).
Proof.
  intros Hwf Hat Hn Htier1.
  destruct (at_step_ok g Hwf mp n s Hat) as [Hok Hlen].
  pose proof (ok_shape _ _ _ Hok) as Hvis.
  assert (step g s = reposition g s dirs) as Hstep.
  { apply step_reposition.
    destruct (explore_cases g s Hwf Hvis dirs)
      as [[? _] | (ds1 & d0 & ds2 & Hds & _ & Hd0 & _)]; [done |].
    destruct (Htier1 d0); [| done].
    rewrite Hds, elem_of_app, elem_of_cons. auto. }
  split.
  - intros k d Hk Hd Hfirst.
    destruct (reposition_cases g s Hwf Hvis dirs)
      as [[_ Hnone] | (ds1 & d0 & ds2 & Hds & Hds1 & Hd0 & Hre)].
    { destruct (Hnone d); [by eapply list_elem_of_lookup_2 | done]. }
    assert (d0 = d) as ->.
    { by eapply (first_fit_unique (λ d, promising g s (shift (here s) d))). }
    destruct (step_back_ok g (mp + 1) s Hok) with (p := shift (here s) d)
      as (s' & Hs' & Hhere & Ht & Hu & Hsame & _); [lia | by destruct Hd | |].
    { apply adjacent_shift. by eapply list_elem_of_lookup_2. }
    simpl in Hs'. rewrite Hs' in Hre. rewrite Hre in Hstep.
    exists s'. split_and!; try done.
    + by eapply at_next.
    + apply (ok_visited _ _ _ Hok). by destruct Hd as [[_ ?] _].
  - intros Htier2.
    assert (step g s = Some None) as Hstop.
    { rewrite Hstep.
      destruct (reposition_cases g s Hwf Hvis dirs)
        as [[? _] | (ds1 & d0 & ds2 & Hds & _ & Hd0 & _)]; [done |].
      destruct (Htier2 d0); [| done].
      rewrite Hds, elem_of_app, elem_of_cons. auto. }
    split; [done |].
    rewrite (solve_path_from g mp n s Hat).
    replace (Z.to_nat mp - n)%nat with (S (Z.to_nat mp - S n)) by lia.
    simpl. by rewrite Hstop.
Qed.

Lemma tier2_reposition_witness :
  ∃ s', step grid_nook corner = Some (Some s')
    ∧ at_step grid_nook 4 3 s'
    ∧ here s' = (0, 1)
    ∧ (0, 1) ∈ trail corner
    ∧ trail s' = [(0, 0); (0, 1); (0, 2); (0, 1)]
    ∧ visited s' = visited corner
    ∧ unique_count s' = 3.
Proof.
  refine (proj1 (tier2_reposition grid_nook 4 2 corner _ _ _ _) 3%nat (0, -1) _ _ _).
  - reflexivity.
  - eapply at_next;
      [eapply at_next; [eapply at_first; reflexivity | lia | reflexivity] | lia |].
    reflexivity.
  - lia.
  - intros d Hd [[Hin Hb] Hv]. revert Hin Hb Hv.
    unfold dirs, dr, dc in Hd. simpl in Hd.
    repeat (apply elem_of_cons in Hd as [-> | Hd]; [vm_compute; congruence |]).
    by apply elem_of_nil in Hd.
  - reflexivity.
  - split; [repeat split; reflexivity |].
    exists (1, 0). split; [| repeat split; reflexivity].
    unfold dirs, dr, dc. simpl. rewrite !elem_of_cons. auto.
  - intros j d' Hj Hd' [[[Hin Hb] Hv] _]. revert Hin Hb Hv.
    destruct j as [| [| [| j]]]; [| | | lia]; injection Hd' as <-;
      vm_compute; congruence.
Defined.

(** C4: for every non-negative movement budget the path [solve_path] prints
    has at most [movement_points + 1] entries (and one is printed whenever
    [movement_points + 1] is representable); the bound need not be attained:
    on the 1 x 1 board a budget of one step gives a path of length one. *)
Theorem path_length_le_budget (g : Grid) (mp : Z) :
  Grid_wf g → 0 <= mp →
  (∀ rep, solve_path g mp = Some rep →
          Z.of_nat (length (path rep)) <= mp + 1)
  ∧ (mp < INT_MAX → is_Some (solve_path g mp))
  ∧ (∃ g' mp' rep', Grid_wf g' ∧ 0 <= mp'
       ∧ solve_path g' mp' = Some rep'
       ∧ Z.of_nat (length (path rep')) < mp' + 1).
Proof.
  intros Hwf Hmp. split_and!.
  - intros rep Hrep.
    destruct (solve_path_report g Hwf mp rep Hrep) as [-> | (s & -> & Hok)]; simpl.
    + lia.
    + rewrite (pathLen_trail g (mp + 1) s Hok).
      by destruct Hok as [_ _ _ [] _ _ _ _ _].
  - intros Hlt. by apply solve_path_total.
  - exists grid1, 1, (Report [(0, 0)] 1).
    split_and!; [reflexivity | lia | reflexivity | simpl; lia].
Qed.

Lemma path_length_le_budget_witness :
  (∀ rep, solve_path grid_nook 4 = Some rep →
          Z.of_nat (length (path rep)) <= 4 + 1)
  ∧ (4 < INT_MAX → is_Some (solve_path grid_nook 4))
  ∧ (∃ g' mp' rep', Grid_wf g' ∧ 0 <= mp'
       ∧ solve_path g' mp' = Some rep'
       ∧ Z.of_nat (length (path rep')) < mp' + 1).
Proof. apply (path_length_le_budget grid_nook 4); [reflexivity | lia]. Defined.

(** C5: for every non-negative movement budget the count of unique squares
    [solve_path] prints is the number of distinct coordinates in the path it
    prints (a report is printed whenever [movement_points + 1] is
    representable), and [unique_count] is the number of distinct coordinates
    walked so far at every iteration of the step loop. *)
Theorem unique_count_is_distinct (g : Grid) (mp : Z) :
  Grid_wf g → 0 <= mp →
  (∀ rep, solve_path g mp = Some rep →
          unique_squares rep = distinct (path rep))
  ∧ (mp < INT_MAX → is_Some (solve_path g mp))
  ∧ (∀ n s, at_step g mp n s → unique_count s = distinct (trail s)).
Proof.
  intros Hwf Hmp. split_and!.
  - intros rep Hrep.
    destruct (solve_path_report g Hwf mp rep Hrep) as [-> | (s & -> & Hok)]; simpl.
    + reflexivity.
    + apply Hok.
  - intros Hlt. by apply solve_path_total.
  - intros n s [Hok _]%at_step_ok; [apply Hok | done].
Qed.

Lemma unique_count_is_distinct_witness :
  (∀ rep, solve_path grid_nook 4 = Some rep →
          unique_squares rep = distinct (path rep))
  ∧ (4 < INT_MAX → is_Some (solve_path grid_nook 4))
  ∧ (∀ n s, at_step grid_nook 4 n s → unique_count s = distinct (trail s)).
Proof. apply (unique_count_is_distinct grid_nook 4); [reflexivity | lia]. Defined.

(** C6: when every cell of the grid is blocked, [solve_path] prints no path
    and a count of 0, whatever the movement budget; no memory is touched
    outside the grid. *)
Theorem all_blocked_empty (g : Grid) (mp : Z) :
  (∀ r c, in_bounds g r c = true → is_blocked g (r, c)) →
  solve_path g mp = Some (Report [] 0).
Proof.
  intros Hall. unfold solve_path.
  destruct (find_start_cases g) as [[-> _] | (p & _ & [[Hin Hfree] _])].
  - intros r c Hin. rewrite (Hall r c Hin). by eexists.
  - done.
  - destruct p as [r c]. simpl in *.
    specialize (Hall r c Hin). unfold is_blocked in Hall. simpl in Hall.
    congruence.
Qed.

Lemma all_blocked_empty_witness :
  solve_path (mkGrid 2 2 [[true; true]; [true; true]]) 10 = Some (Report [] 0).
Proof.
  apply all_blocked_empty. intros r c Hin%in_bounds_spec. simpl in Hin.
  assert (r = 0 ∨ r = 1) as [-> | ->] by lia;
    (assert (c = 0 ∨ c = 1) as [-> | ->] by lia); reflexivity.
Defined.

Example test2_all_blocked : test2 = Some (Report [] 0).
Proof. reflexivity. Qed.

(** C7: on the 3 x 3 board of Test 3 (middle row blocked) with five movement
    points, at most three unique squares are visited and no path entry lies
    in row 1. *)
Theorem middle_row_never_entered :
  ∃ rep, test3 = Some rep
         ∧ solve_path grid3 5 = Some rep
         ∧ unique_squares rep <= 3
         ∧ Forall (λ p, p.1 ≠ 1) (path rep).
Proof.
  exists (Report [(0, 0); (0, 1); (0, 2)] 3).
  split_and!; [reflexivity | reflexivity | simpl; lia |].
  simpl. repeat constructor; simpl; lia.
Qed.

(** C9: every coordinate [solve_path] prints is in-bounds and free, and
    consecutive entries of the path are orthogonal neighbours; a report is
    printed whenever the budget is not negative and [movement_points + 1] is
    representable. *)
Theorem path_cells_valid (g : Grid) (mp : Z) :
  Grid_wf g →
  (0 <= mp < INT_MAX → is_Some (solve_path g mp))
  ∧ ∀ rep, solve_path g mp = Some rep →
      (∀ p, p ∈ path rep →
            (0 <= p.1 < rows g ∧ 0 <= p.2 < cols g)
            ∧ mget (blocked g) p.1 p.2 = Some false)
      ∧ (∀ i p q, path rep !! i = Some p → path rep !! S i = Some q →
                  adjacent p q).
Proof.
  intros Hwf. split; [by apply solve_path_total |].
  intros rep Hrep.
  destruct (solve_path_report g Hwf mp rep Hrep) as [-> | (s & -> & Hok)];
    simpl; split.
  - intros p Hp. by apply elem_of_nil in Hp.
  - intros i p q Hp. done.
  - intros p [Hin Hfree]%(ok_free _ _ _ Hok).
    by apply in_bounds_spec in Hin.
  - apply Hok.
Qed.

Lemma path_cells_valid_witness :
  (0 <= 4 < INT_MAX → is_Some (solve_path grid_nook 4))
  ∧ ∀ rep, solve_path grid_nook 4 = Some rep →
      (∀ p, p ∈ path rep →
            (0 <= p.1 < 2 ∧ 0 <= p.2 < 3)
            ∧ mget (blocked grid_nook) p.1 p.2 = Some false)
      ∧ (∀ i p q, path rep !! i = Some p → path rep !! S i = Some q →
                  adjacent p q).
Proof. apply (path_cells_valid grid_nook 4). reflexivity. Defined.

(** ** Counting blocked cells *)

Section counting.
Implicit Types (m : matrix) (row : list bool).

Lemma tally_ones m : tally m = ones (concat m).
Proof. done. Qed.

Lemma ones_cons (b : bool) row :
  ones (b :: row) = (if b then 1 else 0) + ones row.
Proof.
  unfold ones. destruct b.
  - rewrite filter_cons_True by done. simpl. lia.
  - rewrite filter_cons_False by done. lia.
Qed.

Lemma ones_app row1 row2 : ones (row1 ++ row2) = ones row1 + ones row2.
Proof. unfold ones. rewrite filter_app, length_app. lia. Qed.

Lemma ones_insert row (c : nat) :
  row !! c = Some false → ones (<[c := true]> row) = ones row + 1.
Proof.
  intros Hc. pose proof (take_drop_middle row c false Hc) as Hsplit.
  assert (length (take c row) = c) as Hlen.
  { apply lookup_lt_Some in Hc. rewrite length_take. lia. }
  revert Hsplit Hlen. generalize (take c row) (drop (S c) row).
  intros l1 l2 <- <-.
  rewrite insert_app_r_alt, Nat.sub_diag by done. simpl.
  rewrite !ones_app, !ones_cons. lia.
Qed.

Lemma tally_alter m (r : nat) row (f : list bool → list bool) :
  m !! r = Some row → tally (alter f r m) = tally m - ones row + ones (f row).
Proof.
  intros Hr. pose proof (take_drop_middle m r row Hr) as Hsplit.
  assert (length (take r m) = r) as Hlen.
  { apply lookup_lt_Some in Hr. rewrite length_take. lia. }
  revert Hsplit Hlen. generalize (take r m) (drop (S r) m).
  intros l1 l2 <- <-.
  rewrite alter_app_r_alt, Nat.sub_diag by done. simpl.
  rewrite !tally_ones, !concat_app. simpl. rewrite !ones_app. lia.
Qed.

Lemma tally_mset m r c m' :
  mget m r c = Some false → mset m r c true = Some m' →
  tally m' = tally m + 1.
Proof.
  intros (_ & _ & row & Hrow & Hc)%mget_unfold [_ ->]%mset_inv.
  rewrite (tally_alter _ _ row) by done.
  rewrite ones_insert by done. lia.
Qed.

Lemma count_cols_seqZ m r row (k : nat) a acc :
  0 <= r → m !! Z.to_nat r = Some row → 0 <= a →
  (Z.to_nat a + k = length row)%nat →
  count_cols m r (seqZ a (Z.of_nat k)) acc
  = Some (acc + ones (drop (Z.to_nat a) row)).
Proof.
  intros Hr Hrow. revert a acc.
  induction k as [| k IH]; intros a acc Ha Hlen.
  - rewrite drop_ge by lia. simpl. f_equal. unfold ones. simpl. lia.
  - rewrite seqZ_cons by lia. simpl.
    destruct (lookup_lt_is_Some_2 row (Z.to_nat a)) as [b Hb]; [lia |].
    assert (mget m r a = Some b) as ->.
    { apply mget_unfold. split_and!; eauto. }
    simpl. rewrite (drop_S _ _ _ Hb), ones_cons.
    replace (Z.pred (Z.of_nat (S k))) with (Z.of_nat k) by lia.
    rewrite IH by lia.
    replace (Z.to_nat (Z.succ a)) with (S (Z.to_nat a)) by lia.
    f_equal. destruct b; lia.
Qed.

Lemma count_rows_seqZ m R C (k : nat) a acc :
  shape m R C → 0 <= a → (Z.to_nat a + k = length m)%nat →
  count_rows m (seqZ a (Z.of_nat k)) (seqZ 0 C) acc
  = Some (acc + ones (concat (drop (Z.to_nat a) m))).
Proof.
  intros [HR HC]. revert a acc.
  induction k as [| k IH]; intros a acc Ha Hlen.
  - rewrite drop_ge by lia. simpl. f_equal. unfold ones. simpl. lia.
  - rewrite seqZ_cons by lia. simpl.
    destruct (lookup_lt_is_Some_2 m (Z.to_nat a)) as [row Hrow]; [lia |].
    assert (Z.of_nat (length row) = C) as Hl.
    { eapply (proj1 (Forall_lookup _ _) HC); eauto. }
    rewrite <- Hl.
    rewrite (count_cols_seqZ m a row (length row) 0 acc) by (done || lia).
    simpl. rewrite drop_0, (drop_S _ _ _ Hrow). simpl. rewrite ones_app.
    replace (Z.pred (Z.of_nat (S k))) with (Z.of_nat k) by lia.
    rewrite Hl, IH by lia.
    replace (Z.to_nat (Z.succ a)) with (S (Z.to_nat a)) by lia.
    f_equal. lia.
Qed.

Lemma count_blocked_tally g :
  Grid_wf g → count_blocked g = Some (tally (blocked g)).
Proof.
  intros (HR & HC & Hshape)%well_formed_shape. unfold count_blocked.
  pose proof Hshape as [Hlen _].
  rewrite <- Hlen at 1.
  rewrite (count_rows_seqZ _ (rows g) (cols g)) by (done || lia).
  simpl. by rewrite drop_0.
Qed.

Lemma available_tally g :
  Grid_wf g → available g = Some (rows g * cols g - tally (blocked g)).
Proof. intros Hwf. unfold available. by rewrite count_blocked_tally. Qed.

Lemma ones_bound row : 0 <= ones row <= Z.of_nat (length row).
Proof. unfold ones. pose proof (length_filter (λ b : bool, b = true) row). lia. Qed.

Lemma ones_full row : (∀ b, b ∈ row → b = true) → ones row = Z.of_nat (length row).
Proof.
  induction row as [| b row IH]; intros Hall; [done |].
  rewrite ones_cons. rewrite (Hall b) by (apply elem_of_cons; auto).
  rewrite IH; [simpl length; lia |].
  intros b' Hb'. apply Hall, elem_of_cons. auto.
Qed.

Lemma length_concat_shape m R C :
  shape m R C → Z.of_nat (length (concat m)) = R * C.
Proof.
  intros [<- Hrows]. induction Hrows as [| row m Hrow _ IH]; simpl; [lia |].
  rewrite length_app. lia.
Qed.

(** [available] is never negative on a well-formed grid. *)
Lemma tally_bound g :
  Grid_wf g → 0 <= tally (blocked g) <= rows g * cols g.
Proof.
  intros (_ & _ & Hshape)%well_formed_shape.
  rewrite <- (length_concat_shape _ _ _ Hshape). apply ones_bound.
Qed.

Lemma tally_full g :
  Grid_wf g →
  (∀ r c, in_bounds g r c = true → is_blocked g (r, c)) →
  tally (blocked g) = rows g * cols g.
Proof.
  intros (_ & _ & Hshape)%well_formed_shape Hall.
  rewrite <- (length_concat_shape _ _ _ Hshape). apply ones_full.
  intros b (row & Hb & Hrow)%list_elem_of_In%in_concat.
  apply list_elem_of_In, list_elem_of_lookup in Hb as [i Hi].
  apply list_elem_of_In, list_elem_of_lookup in Hrow as [j Hj].
  assert (mget (blocked g) (Z.of_nat i) (Z.of_nat j) = Some b) as Hget.
  { apply mget_unfold. rewrite !Nat2Z.id. split_and!; [lia | lia | eauto]. }
  pose proof (mget_inside _ _ _ _ _ _ Hshape Hget) as Hin%in_bounds_spec.
  specialize (Hall _ _ Hin). unfold is_blocked in Hall. simpl in Hall. congruence.
Qed.

Lemma shape_well_formed g :
  0 < rows g → 0 < cols g → shape (blocked g) (rows g) (cols g) → Grid_wf g.
Proof.
  intros HR HC [Hlen Hrows]. unfold Grid_wf, well_formed.
  rewrite !andb_true_iff. split_and!; [lia.. |].
  apply forallb_forall. intros row Hin%list_elem_of_In.
  rewrite Forall_forall in Hrows. specialize (Hrows _ Hin). simpl in *. lia.
Qed.
End counting.

(** ** Properties of [generate_blocked] *)

Lemma is_blocked_mset g r c m' p :
  mset (blocked g) r c true = Some m' →
  is_blocked g p → is_blocked (with_blocked g m') p.
Proof.
  intros Hset Hp. unfold is_blocked in *. simpl.
  destruct (decide (p = (r, c))) as [-> | Hne].
  - apply (mget_mset_eq _ _ _ _ _ Hset).
  - rewrite (mget_mset_ne _ _ _ _ _ p.1 p.2 Hset); [done | by destruct p].
Qed.

Lemma c_mod_bound x n :
  0 <= x → 0 < n → ∃ r, c_mod x n = Some r ∧ 0 <= r < n.
Proof.
  intros Hx Hn. exists (Z.rem x n). split.
  - unfold c_mod. by rewrite (proj2 (Z.eqb_neq n 0)) by lia.
  - by apply Z.rem_bound_pos.
Qed.

(** The sampling loop, whatever values [rand()] returns: the grid keeps its
    shape, blocked cells stay blocked, and the number of blocked cells grows
    by exactly the number of cells the loop has placed. *)
Lemma place_spec rnd :
  ∀ g num placed,
    Grid_wf g → Forall (λ v, 0 <= v) rnd → placed <= num →
    ∃ out, place g num placed rnd = Some out
      ∧ Grid_wf (grid_of out)
      ∧ rows (grid_of out) = rows g ∧ cols (grid_of out) = cols g
      ∧ (∀ p, is_blocked g p → is_blocked (grid_of out) p)
      ∧ match out with
        | Returned g' =>
            tally (blocked g') = tally (blocked g) + (num - placed)
        | Sampling g' placed' =>
            placed <= placed' < num
            ∧ tally (blocked g') = tally (blocked g) + (placed' - placed)
        end.
Proof.
  induction rnd as [rnd IH] using (induction_ltof1 _ (@length Z)).
  unfold ltof in IH. intros g num placed Hwf Hrnd Hle.
  assert (place g num placed rnd
          = if placed <? num then
              match rnd with
              | x :: y :: rnd' =>
                  r ← c_mod x (rows g);
                  c ← c_mod y (cols g);
                  b ← mget (blocked g) r c;
                  if b : bool then place g num placed rnd'
                  else
                    m ← mset (blocked g) r c true;
                    place (with_blocked g m) num (placed + 1) rnd'
              | _ => Some (Sampling g placed)
              end
            else Some (Returned g)) as -> by by destruct rnd.
  destruct (Z.ltb_spec placed num) as [Hlt | Hge].
  2: { exists (Returned g). simpl. split_and!; try done. lia. }
  destruct rnd as [| x [| y rnd']].
  1, 2: exists (Sampling g placed); simpl; split_and!; try done; lia.
  destruct (well_formed_shape g Hwf) as (HR & HC & Hshape).
  apply Forall_cons in Hrnd as [Hx [Hy Hrnd]%Forall_cons].
  destruct (c_mod_bound x (rows g) Hx HR) as (r & -> & Hr).
  destruct (c_mod_bound y (cols g) Hy HC) as (c & -> & Hc). simpl.
  destruct (mget_shape _ _ _ r c Hshape Hr Hc) as [b Hb]. rewrite Hb. simpl.
  destruct b.
  - apply IH; [simpl; lia | done..].
  - rewrite (mset_Some (blocked g) r c true) by eauto. simpl.
    set (m' := alter _ _ _).
    assert (mset (blocked g) r c true = Some m') as Hset by (apply mset_Some; eauto).
    assert (Grid_wf (with_blocked g m')) as Hwf'.
    { apply shape_well_formed; simpl; [done.. |]. by eapply mset_shape. }
    destruct (IH rnd') with (g := with_blocked g m') (num := num)
                            (placed := placed + 1)
      as (out & -> & Hwfo & Hro & Hco & Hkeep & Hcount);
      [simpl; lia | done | done | lia |].
    exists out. simpl in *. split_and!; try done.
    + intros p Hp. by eapply Hkeep, is_blocked_mset.
    + rewrite (tally_mset _ _ _ _ Hb Hset) in Hcount.
      destruct out; simpl in *; lia.
Qed.

(** C8: for every requested count [n >= 0] and whatever values the random
    source returns, a call [generate_blocked(g, n)] keeps every blocked cell
    blocked and blocks at most [min(n, rows*cols - already_blocked)] new
    cells, each of which was free before the call.  No write hits a cell that
    is already blocked: the number of newly blocked cells equals the number
    of writes, which is [placed] while the loop is still sampling and the
    clamped request once it has returned. *)
Theorem generate_blocked_bound (g : Grid) (n : Z) (rnd : list Z) :
  Grid_wf g → Forall (λ v, 0 <= v) rnd → 0 <= n →
  ∃ out, generate_blocked g n rnd = Some out
    ∧ Grid_wf (grid_of out)
    ∧ rows (grid_of out) = rows g ∧ cols (grid_of out) = cols g
    ∧ (∀ p, is_blocked g p → is_blocked (grid_of out) p)
    ∧ (∀ p, is_blocked (grid_of out) p → ¬ is_blocked g p → is_free g p)
    ∧ 0 <= tally (blocked (grid_of out)) - tally (blocked g)
        <= Z.min n (rows g * cols g - tally (blocked g))
    ∧ match out with
      | Returned g' =>
          tally (blocked g') - tally (blocked g)
          = Z.min n (rows g * cols g - tally (blocked g))
      | Sampling g' placed =>
          tally (blocked g') - tally (blocked g) = placed
      end.
Proof.
  intros Hwf Hrnd Hn0. pose proof (tally_bound g Hwf) as Hbound.
  assert (∀ g', Grid_wf g' → rows g' = rows g → cols g' = cols g →
                ∀ p, is_blocked g' p → ¬ is_blocked g p → is_free g p) as Hnew.
  { intros g' (_ & _ & Hs')%well_formed_shape HR HC p Hp Hnp.
    apply (mget_inside _ _ _ _ _ _ Hs') in Hp. rewrite HR, HC in Hp.
    assert (in_bounds g p.1 p.2 = true) as Hin by by apply in_bounds_spec.
    split; [done |].
    destruct (Grid_wf_readable g Hwf _ _ Hin) as [[] Hb]; [| done].
    by destruct Hnp. }
  unfold generate_blocked.
  destruct (Z.leb_spec n 0) as [Hn | Hn].
  { exists (Returned g). simpl. split_and!; try done; lia. }
  rewrite (available_tally g Hwf). simpl.
  set (avail := rows g * cols g - tally (blocked g)).
  destruct (Z.leb_spec avail 0) as [Ha | Ha].
  { exists (Returned g). simpl. split_and!; try done; lia. }
  destruct (place_spec rnd g (if avail <? n then avail else n) 0 Hwf Hrnd)
    as (out & -> & Hwfo & Hro & Hco & Hkeep & Hcount).
  { destruct (avail <? n); lia. }
  exists out. split_and!; try done; [by apply Hnew | ..];
    destruct (Z.ltb_spec avail n); destruct out; simpl in *; lia.
Qed.

Lemma generate_blocked_bound_witness :
  ∃ out, generate_blocked grid_nook 2 [0; 5; 3; 1; 4; 0] = Some out
    ∧ Grid_wf (grid_of out)
    ∧ rows (grid_of out) = 2 ∧ cols (grid_of out) = 3
    ∧ (∀ p, is_blocked grid_nook p → is_blocked (grid_of out) p)
    ∧ (∀ p, is_blocked (grid_of out) p → ¬ is_blocked grid_nook p →
            is_free grid_nook p)
    ∧ 0 <= tally (blocked (grid_of out)) - tally (blocked grid_nook)
        <= Z.min 2 (2 * 3 - tally (blocked grid_nook))
    ∧ match out with
      | Returned g' =>
          tally (blocked g') - tally (blocked grid_nook)
          = Z.min 2 (2 * 3 - tally (blocked grid_nook))
      | Sampling g' placed =>
          tally (blocked g') - tally (blocked grid_nook) = placed
      end.
Proof.
  apply (generate_blocked_bound grid_nook 2 [0; 5; 3; 1; 4; 0]).
  - reflexivity.
  - repeat constructor; lia.
  - lia.
Defined.

Example generate_blocked_returns :
  generate_blocked grid_nook 2 [0; 5; 3; 1; 4; 0]
  = Some (Returned (mkGrid 2 3 [[false; false; true]; [false; true; true]])).
Proof. reflexivity. Qed.

Example generate_blocked_starved :
  generate_blocked grid_nook 2 [1; 2; 1; 2; 1; 2; 0; 0]
  = Some (Sampling (mkGrid 2 3 [[true; false; false]; [false; false; true]]) 1).
Proof. reflexivity. Qed.

(** C10: [generate_blocked] returns at once, leaving the grid as it is, when
    the requested count is zero or negative or when no free cell remains
    ([available <= 0]); on a well-formed grid the latter is the case exactly
    when every cell is blocked. *)
Theorem generate_blocked_noop (g : Grid) (n : Z) (rnd : list Z) :
  n <= 0
  ∨ (∃ a, available g = Some a ∧ a <= 0)
  ∨ (Grid_wf g ∧ ∀ r c, in_bounds g r c = true → is_blocked g (r, c)) →
  generate_blocked g n rnd = Some (Returned g).
Proof.
  intros Hcase. unfold generate_blocked.
  destruct (Z.leb_spec n 0) as [Hn | Hn]; [done |].
  assert (∃ a, available g = Some a ∧ a <= 0) as (a & -> & Ha).
  { destruct Hcase as [? | [? | [Hwf Hall]]]; [lia | done |].
    exists 0. rewrite (available_tally g Hwf), (tally_full g Hwf Hall).
    split; [f_equal; lia | lia]. }
  simpl. by rewrite (proj2 (Z.leb_le a 0)).
Qed.

Lemma generate_blocked_noop_witness :
  generate_blocked (mkGrid 2 2 [[true; true]; [true; true]]) 3 [1; 0; 2; 5]
  = Some (Returned (mkGrid 2 2 [[true; true]; [true; true]])).
Proof.
  apply generate_blocked_noop. right. left. exists 0. split; [reflexivity | lia].
Defined.

(** ** Properties of [create_grid] *)

Lemma in_range_spec R C r c :
  in_range R C r c = true ↔ 0 <= r < R ∧ 0 <= c < C.
Proof. unfold in_range. rewrite !andb_true_iff. lia. Qed.

Lemma mget_mset_true m r c m' r' c' :
  mset m r c true = Some m' →
  mget m' r' c' = Some true ↔ (r', c') = (r, c) ∨ mget m r' c' = Some true.
Proof.
  intros Hset. destruct (decide ((r', c') = (r, c))) as [[= -> ->] | Hne].
  - rewrite (mget_mset_eq _ _ _ _ _ Hset). naive_solver.
  - rewrite (mget_mset_ne _ _ _ _ _ _ _ Hset Hne). naive_solver.
Qed.

(** The marking loop never fails on an array of the right shape, keeps the
    shape, and sets exactly the listed in-range cells. *)
Lemma mark_list_spec R C l :
  ∀ m, shape m R C →
    ∃ m', mark_list R C m l = Some m'
      ∧ shape m' R C
      ∧ ∀ r c, mget m' r c = Some true
               ↔ mget m r c = Some true
                 ∨ (in_range R C r c = true ∧ (r, c) ∈ l).
Proof.
  induction l as [| [r0 c0] l IH]; intros m Hm; simpl.
  - exists m. split_and!; [done.. |]. intros r c. rewrite elem_of_nil. naive_solver.
  - destruct (in_range R C r0 c0) eqn:Hin.
    + apply in_range_spec in Hin as [Hr Hc].
      pose proof (mset_Some m r0 c0 true (mget_shape _ _ _ _ _ Hm Hr Hc)) as Hset.
      rewrite Hset. simpl.
      destruct (IH _ (mset_shape _ _ _ _ _ _ _ Hset Hm)) as (m' & -> & Hm' & Hget).
      exists m'. split_and!; [done.. |]. intros r c.
      rewrite Hget, (mget_mset_true _ _ _ _ _ _ Hset), elem_of_cons.
      split; [| intros [? | [? [[= -> ->] | ?]]]; eauto].
      intros [[[= -> ->] | ?] | [? ?]]; eauto.
      right. split; [apply in_range_spec; lia | by left].
    + destruct (IH m Hm) as (m' & -> & Hm' & Hget).
      exists m'. split_and!; [done.. |]. intros r c.
      rewrite Hget, elem_of_cons.
      split; [intros [? | [? ?]]; eauto |].
      intros [? | [Hrc [[= -> ->] | ?]]]; eauto. congruence.
Qed.

Lemma alloc_rows_granted heap C (k : nat) :
  0 <= C →
  ∀ a, 0 <= a →
    (∀ i, (Z.to_nat a <= i < Z.to_nat a + k)%nat → heap (2 + i)%nat = true) →
    alloc_rows heap C (seqZ a (Z.of_nat k))
    = Some (replicate k (replicate (Z.to_nat C) false)).
Proof.
  intros HC. induction k as [| k IH]; intros a Ha Hheap; [done |].
  rewrite seqZ_cons by lia. simpl. unfold malloc_ok.
  rewrite (proj2 (Z.leb_le 0 C)) by done.
  assert (heap (S (S (Z.to_nat a))) = true) as ->
    by (apply (Hheap (Z.to_nat a)); lia).
  simpl.
  replace (Z.pred (Z.of_nat (S k))) with (Z.of_nat k) by lia.
  rewrite IH; [done | lia |]. intros i Hi. apply Hheap. lia.
Qed.

Lemma alloc_rows_refused heap C rs i :
  i ∈ rs → heap (2 + Z.to_nat i)%nat = false → alloc_rows heap C rs = None.
Proof.
  intros Hin Hno. induction rs as [| j rs IH]; [by apply elem_of_nil in Hin |].
  simpl. unfold malloc_ok. simpl in Hno.
  apply elem_of_cons in Hin as [<- | Hin].
  - by rewrite Hno, andb_false_r.
  - destruct (_ && _); [| done]. by rewrite IH.
Qed.

Lemma alloc_rows_Some heap C rs m :
  alloc_rows heap C rs = Some m →
  m = replicate (length rs) (replicate (Z.to_nat C) false)
  ∧ (rs ≠ [] → 0 <= C).
Proof.
  revert m. induction rs as [| j rs IH]; intros m; simpl.
  - by intros [= <-].
  - unfold malloc_ok. destruct (0 <=? C) eqn:HC; [| done].
    destruct (heap _); [| done]. simpl.
    destruct (alloc_rows heap C rs) as [m' |]; [| done]. simpl.
    intros [= <-]. destruct (IH m' eq_refl) as [-> _].
    split; [done |]. intros _. by apply Z.leb_le.
Qed.

Lemma create_grid_inv heap R C l g :
  0 < R → 0 < C → create_grid heap R C l = Some (Created g) →
  rows g = R ∧ cols g = C ∧ Grid_wf g
  ∧ ∀ r c, mget (blocked g) r c = Some true
           ↔ in_range R C r c = true ∧ (r, c) ∈ l.
Proof.
  intros HR HC. unfold create_grid.
  destruct (negb (malloc_ok heap 0 1)); [done |].
  destruct (negb (malloc_ok heap 1 R)); [done |].
  destruct (alloc_rows heap C (seqZ 0 R)) as [m0 |] eqn:Hrows; [| done].
  apply alloc_rows_Some in Hrows as [-> _]. rewrite length_seqZ.
  destruct (mark_list_spec R C l (fresh R C)) as (m & Hm & Hshape & Hget);
    [apply fresh_shape; lia |].
  unfold fresh in Hm. rewrite Hm. simpl. intros [= <-]. simpl.
  split_and!; [done.. | |].
  - by apply shape_well_formed.
  - intros r c. rewrite Hget. split; [| eauto].
    intros [Hf%mget_fresh | ?]; done.
Qed.

Lemma create_grid_granted heap R C l :
  0 < R → 0 < C →
  (∀ k, (k < 2 + Z.to_nat R)%nat → heap k = true) →
  ∃ g, create_grid heap R C l = Some (Created g).
Proof.
  intros HR HC Hheap. unfold create_grid, malloc_ok.
  rewrite !Hheap by lia. rewrite (proj2 (Z.leb_le 0 R)) by lia. simpl.
  assert (alloc_rows heap C (seqZ 0 R) = Some (fresh R C)) as ->.
  { pose proof (alloc_rows_granted heap C (Z.to_nat R)) as Hrows.
    rewrite Z2Nat.id in Hrows by lia.
    apply Hrows; [lia | lia |]. intros i Hi. apply Hheap. lia. }
  destruct (mark_list_spec R C l (fresh R C)) as (m & Hm & _);
    [apply fresh_shape; lia |].
  rewrite Hm. by eexists.
Qed.

(** X1: with positive dimensions, [create_grid] returns a grid when the heap
    serves its [2 + rows] allocation requests, for any list of coordinates
    (also ones outside the grid), and the grid has the requested dimensions
    and a cell array of that shape; when one of these requests is refused it
    ends in [exit(1)]. *)
Theorem create_grid_well_formed (heap : nat → bool) (R C : Z)
    (l : list (Z * Z)) :
  0 < R → 0 < C →
  ((∀ k, (k < 2 + Z.to_nat R)%nat → heap k = true) →
   ∃ g, create_grid heap R C l = Some (Created g)
        ∧ rows g = R ∧ cols g = C ∧ Grid_wf g)
  ∧ (∀ k, (k < 2 + Z.to_nat R)%nat → heap k = false →
          create_grid heap R C l = Some Exited).
Proof.
  intros HR HC. split.
  - intros Hheap.
    destruct (create_grid_granted heap R C l HR HC Hheap) as [g Hg].
    exists g. split; [done |].
    by destruct (create_grid_inv heap R C l g HR HC Hg) as (? & ? & ? & _).
  - intros k Hk Hno. unfold create_grid, malloc_ok.
    destruct (heap 0%nat) eqn:H0; [| done]. simpl.
    destruct (heap 1%nat) eqn:H1; [| by rewrite andb_false_r].
    rewrite (proj2 (Z.leb_le 0 R)) by lia. simpl.
    destruct k as [| [| i]]; [congruence | congruence |].
    rewrite (alloc_rows_refused heap C (seqZ 0 R) (Z.of_nat i)); [done | |].
    + apply elem_of_seqZ. lia.
    + by rewrite Nat2Z.id.
Qed.

Lemma create_grid_well_formed_witness :
  ((∀ k, (k < 2 + Z.to_nat 2)%nat → ample k = true) →
   ∃ g, create_grid ample 2 3 [(1, 2); (7, 7); (-1, 0); (1, 2)] = Some (Created g)
        ∧ rows g = 2 ∧ cols g = 3 ∧ Grid_wf g)
  ∧ (∀ k, (k < 2 + Z.to_nat 2)%nat → ample k = false →
          create_grid ample 2 3 [(1, 2); (7, 7); (-1, 0); (1, 2)] = Some Exited).
Proof. apply create_grid_well_formed; lia. Defined.

Example create_grid_row_refused :
  create_grid (λ k, negb (k =? 3)%nat) 2 3 [(1, 2)] = Some Exited.
Proof. reflexivity. Qed.

(** X2: in the grid [create_grid] returns, a cell is blocked exactly when it
    is inside the grid and listed, and free exactly when it is inside the
    grid and not listed; listed coordinates outside the grid have no
    effect. *)
Theorem create_grid_blocked_iff (heap : nat → bool) (R C : Z)
    (l : list (Z * Z)) (g : Grid) :
  0 < R → 0 < C → create_grid heap R C l = Some (Created g) →
  ∀ p, (is_blocked g p ↔ in_range R C p.1 p.2 = true ∧ p ∈ l)
       ∧ (is_free g p ↔ in_range R C p.1 p.2 = true ∧ p ∉ l).
Proof.
  intros HR HC Hg [r c].
  destruct (create_grid_inv heap R C l g HR HC Hg) as (Hrows & Hcols & Hwf & Hget).
  unfold is_blocked, is_free, in_bounds. simpl. rewrite Hrows, Hcols.
  split; [apply Hget |].
  split.
  - intros [Hin Hfree]. split; [done |]. intros Hl.
    assert (mget (blocked g) r c = Some true) by (apply Hget; done). congruence.
  - intros [Hin Hl]. split; [done |].
    destruct (Grid_wf_readable g Hwf r c) as [[] Hb]; [| | done].
    + unfold in_bounds. by rewrite Hrows, Hcols.
    + apply Hget in Hb as [_ ?]. done.
Qed.

Lemma create_grid_blocked_iff_witness :
  (is_blocked grid3 (1, 1) ↔ in_range 3 3 1 1 = true
                             ∧ (1, 1) ∈ [(1, 0); (1, 1); (1, 2)])
  ∧ (is_free grid3 (1, 1) ↔ in_range 3 3 1 1 = true
                           ∧ (1, 1) ∉ [(1, 0); (1, 1); (1, 2)]).
Proof.
  refine (create_grid_blocked_iff ample 3 3 [(1, 0); (1, 1); (1, 2)] grid3
            _ _ _ (1, 1));
    [lia | lia | reflexivity].
Defined.

Lemma matrix_ext (m1 m2 : matrix) R C :
  shape m1 R C → shape m2 R C →
  (∀ r c, 0 <= r < R → 0 <= c < C → mget m1 r c = mget m2 r c) →
  m1 = m2.
Proof.
  intros [Hl1 Hr1] [Hl2 Hr2] Hget.
  apply (list_eq_same_length _ _ (length m1)); [lia | lia |].
  intros i row1 row2 Hi Hrow1 Hrow2.
  assert (Z.of_nat (length row1) = C) as Hc1.
  { eapply (proj1 (Forall_lookup _ _) Hr1); eauto. }
  assert (Z.of_nat (length row2) = C) as Hc2.
  { eapply (proj1 (Forall_lookup _ _) Hr2); eauto. }
  apply (list_eq_same_length _ _ (length row1)); [lia | lia |].
  intros j b1 b2 Hj Hb1 Hb2.
  assert (mget m1 (Z.of_nat i) (Z.of_nat j) = Some b1) as H1.
  { apply mget_unfold. rewrite !Nat2Z.id. split_and!; [lia | lia | eauto]. }
  assert (mget m2 (Z.of_nat i) (Z.of_nat j) = Some b2) as H2.
  { apply mget_unfold. rewrite !Nat2Z.id. split_and!; [lia | lia | eauto]. }
  rewrite Hget in H1 by lia. congruence.
Qed.

(** X3: the outcome of [create_grid] depends only on which in-range
    coordinates are listed: order, repetitions and out-of-range entries of
    the list do not matter (marking a cell twice is the same as marking it
    once). *)
Theorem create_grid_set_semantics (heap : nat → bool) (R C : Z)
    (l1 l2 : list (Z * Z)) :
  0 < R → 0 < C →
  (∀ p, in_range R C p.1 p.2 = true → (p ∈ l1 ↔ p ∈ l2)) →
  create_grid heap R C l1 = create_grid heap R C l2.
Proof.
  intros HR HC Hsame.
  destruct (create_grid heap R C l1) as [[g1 |] |] eqn:Hg1.
  2, 3: revert Hg1; unfold create_grid;
        destruct (negb (malloc_ok heap 0 1)); [done |];
        destruct (negb (malloc_ok heap 1 R)); [done |];
        destruct (alloc_rows heap C (seqZ 0 R)) as [m0 |] eqn:Hrows; [| done];
        apply alloc_rows_Some in Hrows as [-> _]; rewrite length_seqZ;
        (destruct (mark_list_spec R C l1 (fresh R C)) as (m1 & Hm1 & _);
           [apply fresh_shape; lia |]);
        unfold fresh in Hm1; rewrite Hm1; done.
  assert (∃ g2, create_grid heap R C l2 = Some (Created g2)) as [g2 Hg2].
  { revert Hg1. unfold create_grid.
    destruct (negb (malloc_ok heap 0 1)); [done |].
    destruct (negb (malloc_ok heap 1 R)); [done |].
    destruct (alloc_rows heap C (seqZ 0 R)) as [m0 |] eqn:Hrows; [| done].
    apply alloc_rows_Some in Hrows as [-> _]. rewrite length_seqZ. intros _.
    destruct (mark_list_spec R C l2 (fresh R C)) as (m2 & Hm2 & _);
      [apply fresh_shape; lia |].
    unfold fresh in Hm2. rewrite Hm2. by eexists. }
  destruct (create_grid_inv heap R C l1 g1 HR HC Hg1) as (Hr1 & Hc1 & Hwf1 & Hget1).
  destruct (create_grid_inv heap R C l2 g2 HR HC Hg2) as (Hr2 & Hc2 & Hwf2 & Hget2).
  rewrite Hg2. f_equal. f_equal.
  destruct g1 as [R1 C1 m1], g2 as [R2 C2 m2]. simpl in *. subst.
  f_equal.
  apply well_formed_shape in Hwf1 as (_ & _ & Hs1).
  apply well_formed_shape in Hwf2 as (_ & _ & Hs2). simpl in *.
  apply (matrix_ext _ _ R C Hs1 Hs2). intros r c Hr Hc.
  destruct (mget_shape _ _ _ r c Hs1 Hr Hc) as [b1 Hb1].
  destruct (mget_shape _ _ _ r c Hs2 Hr Hc) as [b2 Hb2].
  rewrite Hb1, Hb2. f_equal.
  assert (in_range R C r c = true) as Hin by (apply in_range_spec; lia).
  specialize (Hget1 r c). specialize (Hget2 r c). specialize (Hsame (r, c) Hin).
  destruct b1, b2; try done.
  - assert (Some false = Some true) by (rewrite <- Hb2; naive_solver). done.
  - assert (Some false = Some true) by (rewrite <- Hb1; naive_solver). done.
Qed.

Lemma create_grid_set_semantics_witness :
  create_grid ample 3 3 [(1, 0); (1, 1); (1, 2)]
  = create_grid ample 3 3 [(1, 2); (9, 9); (1, 0); (1, 1); (1, 2); (0, -1)].
Proof.
  apply create_grid_set_semantics; [lia | lia |].
  intros [r c] [Hr Hc]%in_range_spec. simpl in *.
  rewrite !elem_of_cons, !elem_of_nil.
  split; intros H; repeat destruct H as [H | H]; try done;
    injection H as -> ->; try lia; auto 10.
Defined.

(** X18: a negative number of rows, or a negative number of columns of a
    grid with at least one row, is a size no allocation can serve:
    [create_grid] ends in [exit(1)] whatever the heap. *)
Theorem create_grid_bad_dimension (heap : nat → bool) (R C : Z)
    (l : list (Z * Z)) :
  R < 0 ∨ (0 < R ∧ C < 0) → create_grid heap R C l = Some Exited.
Proof.
  intros Hbad. unfold create_grid, malloc_ok.
  destruct (heap 0%nat); [| done]. simpl.
  destruct Hbad as [HR | [HR HC]].
  - by rewrite (proj2 (Z.leb_gt 0 R)) by lia.
  - destruct (_ && _); [| done]. simpl.
    rewrite seqZ_cons by lia. simpl. unfold malloc_ok.
    by rewrite (proj2 (Z.leb_gt 0 C)) by lia.
Qed.

Lemma create_grid_bad_dimension_witness :
  create_grid ample (-2) 3 [(0, 0)] = Some Exited.
Proof. apply create_grid_bad_dimension. left. lia. Defined.

(** ** Properties of [print_grid] *)

Lemma print_cols_seqZ (m : matrix) r row (k : nat) a :
  0 <= r → m !! Z.to_nat r = Some row → 0 <= a →
  (Z.to_nat a + k = length row)%nat →
  print_cols m r (seqZ a (Z.of_nat k))
  = Some (map cell_char (drop (Z.to_nat a) row)).
Proof.
  intros Hr Hrow. revert a. induction k as [| k IH]; intros a Ha Hlen.
  - by rewrite drop_ge by lia.
  - rewrite seqZ_cons by lia. simpl.
    destruct (lookup_lt_is_Some_2 row (Z.to_nat a)) as [b Hb]; [lia |].
    assert (mget m r a = Some b) as ->.
    { apply mget_unfold. split_and!; eauto. }
    simpl. rewrite (drop_S _ _ _ Hb).
    replace (Z.pred (Z.of_nat (S k))) with (Z.of_nat k) by lia.
    rewrite IH by lia.
    by replace (Z.to_nat (Z.succ a)) with (S (Z.to_nat a)) by lia.
Qed.

Lemma print_rows_seqZ (m : matrix) R C (k : nat) a :
  shape m R C → 0 <= a → (Z.to_nat a + k = length m)%nat →
  print_rows m (seqZ a (Z.of_nat k)) (seqZ 0 C)
  = Some (render (drop (Z.to_nat a) m)).
Proof.
  intros [HR HC]. revert a. induction k as [| k IH]; intros a Ha Hlen.
  - by rewrite drop_ge by lia.
  - rewrite seqZ_cons by lia. simpl.
    destruct (lookup_lt_is_Some_2 m (Z.to_nat a)) as [row Hrow]; [lia |].
    assert (Z.of_nat (length row) = C) as Hl.
    { eapply (proj1 (Forall_lookup _ _) HC); eauto. }
    rewrite <- Hl.
    rewrite (print_cols_seqZ m a row (length row) 0) by (done || lia).
    simpl. rewrite drop_0, (drop_S _ _ _ Hrow).
    replace (Z.pred (Z.of_nat (S k))) with (Z.of_nat k) by lia.
    rewrite Hl, IH by lia. simpl.
    replace (Z.to_nat (Z.succ a)) with (S (Z.to_nat a)) by lia.
    unfold render. simpl. by rewrite <- app_assoc.
Qed.

Lemma print_grid_render g :
  Grid_wf g → print_grid g = Some (render (blocked g)).
Proof.
  intros (HR & HC & Hshape)%well_formed_shape. unfold print_grid.
  pose proof Hshape as [Hlen _]. rewrite <- Hlen at 1.
  rewrite (print_rows_seqZ _ (rows g) (cols g)) by (done || lia).
  simpl. by rewrite drop_0.
Qed.

Lemma render_cons row (m : matrix) :
  render (row :: m) = map cell_char row ++ newline :: render m.
Proof. unfold render. simpl. by rewrite <- app_assoc. Qed.

Lemma length_render (m : matrix) (C : nat) :
  Forall (λ row, length row = C) m →
  length (render m) = (length m * S C)%nat.
Proof.
  induction 1 as [| row m Hrow _ IH]; [done |].
  rewrite render_cons, length_app, length_map. simpl. lia.
Qed.

Lemma render_lookup (m : matrix) (C : nat) :
  Forall (λ row, length row = C) m →
  ∀ i j row, m !! i = Some row →
    ((j < C)%nat → render m !! (i * S C + j)%nat = cell_char <$> row !! j)
    ∧ render m !! (i * S C + C)%nat = Some newline.
Proof.
  induction 1 as [| row0 m Hrow0 _ IH]; intros i j row Hi; [done |].
  rewrite render_cons. destruct i as [| i]; simpl in Hi.
  - injection Hi as ->. simpl. split.
    + intros Hj. rewrite lookup_app_l by (rewrite length_map; lia).
      apply list_lookup_fmap.
    + rewrite lookup_app_r by (rewrite length_map; lia).
      rewrite length_map, Hrow0, Nat.sub_diag. done.
  - destruct (IH i j row Hi) as [Hcell Hnl]. split.
    + intros Hj. rewrite lookup_app_r by (rewrite length_map; lia).
      rewrite length_map, Hrow0.
      replace (S i * S C + j - C)%nat with (S (i * S C + j)) by lia. simpl. auto.
    + rewrite lookup_app_r by (rewrite length_map; lia).
      rewrite length_map, Hrow0.
      replace (S i * S C + C - C)%nat with (S (i * S C + C)) by lia. done.
Qed.

(** X4: on a well-formed grid [print_grid] writes [rows] lines of [cols]
    characters, each followed by a newline; the character in line [r],
    column [c] is ['#'] when cell [(r, c)] is blocked and ['.'] when it is
    free. *)
Theorem print_grid_layout (g : Grid) :
  Grid_wf g →
  ∃ out, print_grid g = Some out
    ∧ Z.of_nat (length out) = rows g * (cols g + 1)
    ∧ (∀ r c, 0 <= r < rows g → 0 <= c < cols g →
         out !! Z.to_nat (r * (cols g + 1) + c)
         = cell_char <$> mget (blocked g) r c)
    ∧ (∀ r, 0 <= r < rows g →
         out !! Z.to_nat (r * (cols g + 1) + cols g) = Some newline).
Proof.
  intros Hwf. exists (render (blocked g)).
  split; [by apply print_grid_render |].
  destruct (well_formed_shape g Hwf) as (HR & HC & [Hlen Hrows]).
  assert (Forall (λ row : list bool, length row = Z.to_nat (cols g)) (blocked g))
    as Hrows'.
  { eapply Forall_impl; [done |]. simpl. lia. }
  assert (∀ r x, 0 <= r → 0 <= x →
            Z.to_nat (r * (cols g + 1) + x)
            = (Z.to_nat r * S (Z.to_nat (cols g)) + Z.to_nat x)%nat) as Hidx.
  { intros r x Hr Hx.
    rewrite Z2Nat.inj_add, Z2Nat.inj_mul by nia.
    replace (Z.to_nat (cols g + 1)) with (S (Z.to_nat (cols g))) by lia. done. }
  split_and!.
  - rewrite (length_render _ _ Hrows'). nia.
  - intros r c Hr Hc. rewrite Hidx by lia.
    destruct (lookup_lt_is_Some_2 (blocked g) (Z.to_nat r)) as [row Hrow]; [lia |].
    destruct (render_lookup _ _ Hrows' (Z.to_nat r) (Z.to_nat c) row Hrow)
      as [Hcell _].
    rewrite Hcell by lia. unfold mget.
    rewrite (proj2 (Z.leb_le 0 r)), (proj2 (Z.leb_le 0 c)) by lia. simpl.
    by rewrite Hrow.
  - intros r Hr. rewrite Hidx by lia.
    destruct (lookup_lt_is_Some_2 (blocked g) (Z.to_nat r)) as [row Hrow]; [lia |].
    by destruct (render_lookup _ _ Hrows' (Z.to_nat r) 0%nat row Hrow) as [_ ->].
Qed.

Lemma print_grid_layout_witness :
  ∃ out, print_grid grid_nook = Some out
    ∧ Z.of_nat (length out) = 2 * (3 + 1)
    ∧ (∀ r c, 0 <= r < 2 → 0 <= c < 3 →
         out !! Z.to_nat (r * (3 + 1) + c)
         = cell_char <$> mget (blocked grid_nook) r c)
    ∧ (∀ r, 0 <= r < 2 → out !! Z.to_nat (r * (3 + 1) + 3) = Some newline).
Proof. apply (print_grid_layout grid_nook). reflexivity. Defined.

Example print_grid_test3 :
  print_grid grid3
  = Some ["."; "."; "."; newline; "#"; "#"; "#"; newline; "."; "."; "."; newline]%char.
Proof. reflexivity. Qed.

Lemma render_line_inj (row1 row2 : list bool) (rest1 rest2 : list ascii) :
  map cell_char row1 ++ newline :: rest1 = map cell_char row2 ++ newline :: rest2 →
  row1 = row2 ∧ rest1 = rest2.
Proof.
  revert row2. induction row1 as [| b1 row1 IH]; intros [| b2 row2]; simpl.
  - by intros [= ->].
  - by destruct b2.
  - by destruct b1.
  - intros [= Hb Hrest]. destruct (IH _ Hrest) as [-> ->].
    by destruct b1, b2.
Qed.

Lemma render_inj (m1 m2 : matrix) : render m1 = render m2 → m1 = m2.
Proof.
  revert m2. induction m1 as [| row1 m1 IH]; intros [| row2 m2];
    rewrite ?render_cons.
  - done.
  - by destruct (map cell_char row2).
  - by destruct (map cell_char row1).
  - intros [-> Hrest]%render_line_inj. by rewrite (IH _ Hrest).
Qed.

(** X5: the printout determines the grid: two well-formed grids that print
    the same characters are the same grid (same dimensions, same blocked
    cells). *)
Theorem print_grid_injective (g1 g2 : Grid) :
  Grid_wf g1 → Grid_wf g2 → print_grid g1 = print_grid g2 → g1 = g2.
Proof.
  intros Hwf1 Hwf2.
  rewrite (print_grid_render g1 Hwf1), (print_grid_render g2 Hwf2).
  intros [= Hm%render_inj].
  destruct (well_formed_shape g1 Hwf1) as (HR1 & _ & [Hl1 Hc1]).
  destruct (well_formed_shape g2 Hwf2) as (_ & _ & [Hl2 Hc2]).
  destruct g1 as [R1 C1 m1], g2 as [R2 C2 m2]. simpl in *. subst m2.
  destruct m1 as [| row m1]; [simpl in *; lia |].
  apply Forall_cons in Hc1 as [Hc1 _]. apply Forall_cons in Hc2 as [Hc2 _].
  f_equal; lia.
Qed.

Lemma print_grid_injective_witness :
  mkGrid 3 3 [[false; false; false]; [true; true; true]; [false; false; false]]
  = grid3.
Proof.
  apply print_grid_injective; reflexivity.
Defined.

(** ** More on the step loop *)

Lemma step_kinds g cap s :
  Grid_wf g → walker_ok g cap s → pathLen s < cap →
  (step g s = Some None
   ∧ (∀ d, d ∈ dirs → ¬ unvisited g s (shift (here s) d))
   ∧ (∀ d, d ∈ dirs → ¬ promising g s (shift (here s) d)))
  ∨ (∃ d s', d ∈ dirs
       ∧ unvisited g s (shift (here s) d)
       ∧ step g s = Some (Some s')
       ∧ here s' = shift (here s) d
       ∧ trail s' = trail s ++ [shift (here s) d]
       ∧ unique_count s' = unique_count s + 1
       ∧ walker_ok g cap s')
  ∨ (∃ d s', d ∈ dirs
       ∧ (∀ d', d' ∈ dirs → ¬ unvisited g s (shift (here s) d'))
       ∧ promising g s (shift (here s) d)
       ∧ step g s = Some (Some s')
       ∧ here s' = shift (here s) d
       ∧ trail s' = trail s ++ [shift (here s) d]
       ∧ unique_count s' = unique_count s
       ∧ visited s' = visited s
       ∧ walker_ok g cap s').
Proof.
  intros Hwf Hok Hroom. pose proof (ok_shape _ _ _ Hok) as Hvis.
  destruct (explore_cases g s Hwf Hvis dirs)
    as [[Hex Hnone] | (ds1 & d & ds2 & Hds & _ & Hd & Hex)].
  - rewrite (step_reposition g s Hex).
    destruct (reposition_cases g s Hwf Hvis dirs)
      as [[Hre Hnone'] | (ds1 & d & ds2 & Hds & _ & Hd & Hre)].
    + by left.
    + right. right.
      assert (d ∈ dirs) as Hin by (rewrite Hds, elem_of_app, elem_of_cons; auto).
      destruct (step_back_ok g cap s Hok Hroom (shift (here s) d))
        as (s' & Hs' & ? & ? & ? & ? & ?);
        [by destruct Hd | by apply adjacent_shift |].
      simpl in Hs'. rewrite Hs' in Hre. exists d, s'. split_and!; done.
  - right. left.
    assert (d ∈ dirs) as Hin by (rewrite Hds, elem_of_app, elem_of_cons; auto).
    destruct (enter_ok g cap s Hok Hroom (shift (here s) d))
      as (s' & Hs' & ? & ? & ? & ? & ?); [done | by apply adjacent_shift |].
    simpl in Hs'. rewrite Hs' in Hex. exists d, s'.
    split_and!; try done. by apply step_explore.
Qed.

Lemma walk_stuck g n s : step g s = Some None → walk g n s = Some s.
Proof. intros Hs. destruct n; simpl; [done | by rewrite Hs]. Qed.

Lemma walk_add g n k s :
  walk g (n + k) s = (s' ← walk g n s; walk g k s').
Proof.
  revert s. induction n as [| n IH]; intros s; simpl; [done |].
  destruct (step g s) as [[s1 |] |] eqn:Hstep; simpl; [apply IH | | done].
  by rewrite walk_stuck.
Qed.

(** The loop either uses its whole budget or stops at a state where neither
    tier can move. *)
Lemma walk_full_or_stuck g cap n s :
  Grid_wf g → walker_ok g cap s → pathLen s + Z.of_nat n <= cap →
  ∃ s', walk g n s = Some s' ∧ walker_ok g cap s'
        ∧ (pathLen s' = pathLen s + Z.of_nat n
           ∨ (pathLen s' < cap ∧ step g s' = Some None)).
Proof.
  intros Hwf. revert s. induction n as [| n IH]; intros s Hok Hroom; simpl.
  - exists s. split_and!; [done.. |]. left. lia.
  - destruct (step_cases g Hwf cap s Hok)
      as [(Hstop & _) | (s1 & p & Hs1 & _ & Hlen & Hok1)]; [lia | |].
    + rewrite Hstop. exists s. split_and!; [done.. |]. right. split; [lia | done].
    + rewrite Hs1. simpl.
      destruct (IH s1 Hok1) as (s' & -> & Hok' & Hend); [lia |].
      exists s'. split_and!; [done.. |]. destruct Hend; [left; lia | by right].
Qed.

Lemma distinct_le_length (l : list (Z * Z)) :
  0 <= distinct l <= Z.of_nat (length l).
Proof.
  induction l as [| x l IH] using rev_ind; [done |].
  rewrite length_app. simpl.
  destruct (decide (x ∈ l)).
  - rewrite distinct_snoc_old by done. lia.
  - rewrite distinct_snoc_new by done. lia.
Qed.

Lemma distinct_prefix (l1 l2 : list (Z * Z)) :
  l1 `prefix_of` l2 → distinct l1 <= distinct l2.
Proof.
  intros [k ->]. unfold distinct. rewrite list_to_set_app_L.
  apply inj_le, subseteq_size. set_solver.
Qed.

Lemma solve_path_unfold g mp p s0 :
  find_start g = Some (Some p) → start_walker g mp p.1 p.2 = Some s0 →
  solve_path g mp
  = (s ← walk g (Z.to_nat mp) s0; Some (Report (trail s) (unique_count s))).
Proof.
  intros Hp Hs0. unfold solve_path. rewrite Hp. destruct p as [r c].
  simpl in *. by rewrite Hs0.
Qed.

(** ** States that differ only in the size of the path arrays *)

Lemma explore_cons g s d ds :
  explore g s (d :: ds)
  = if in_bounds g (cr s + d.1) (cc s + d.2) then
      b ← mget (blocked g) (cr s + d.1) (cc s + d.2);
      if b : bool then explore g s ds else
        v ← mget (visited s) (cr s + d.1) (cc s + d.2);
        if v : bool then explore g s ds
        else Some <$> enter s (cr s + d.1) (cc s + d.2)
    else explore g s ds.
Proof. by destruct d. Qed.

Lemma lookahead_cons g s nr nc d ds :
  lookahead g s nr nc (d :: ds)
  = if in_bounds g (nr + d.1) (nc + d.2) then
      b ← mget (blocked g) (nr + d.1) (nc + d.2);
      if b : bool then lookahead g s nr nc ds else
        v ← mget (visited s) (nr + d.1) (nc + d.2);
        if v : bool then lookahead g s nr nc ds
        else Some <$> step_back s nr nc
    else lookahead g s nr nc ds.
Proof. by destruct d. Qed.

Lemma reposition_cons g s d ds :
  reposition g s (d :: ds)
  = if in_bounds g (cr s + d.1) (cc s + d.2) then
      b ← mget (blocked g) (cr s + d.1) (cc s + d.2);
      if b : bool then reposition g s ds else
        v ← mget (visited s) (cr s + d.1) (cc s + d.2);
        if v : bool then
          m ← lookahead g s (cr s + d.1) (cc s + d.2) dirs;
          match m with
          | Some s' => Some (Some s')
          | None => reposition g s ds
          end
        else reposition g s ds
    else reposition g s ds.
Proof. by destruct d. Qed.

Lemma explore_view g s1 s2 ds :
  cr s1 = cr s2 → cc s1 = cc s2 → visited s1 = visited s2 →
  (explore g s1 ds = None ∧ explore g s2 ds = None)
  ∨ (explore g s1 ds = Some None ∧ explore g s2 ds = Some None)
  ∨ (∃ nr nc, explore g s1 ds = Some <$> enter s1 nr nc
              ∧ explore g s2 ds = Some <$> enter s2 nr nc).
Proof.
  intros Hr Hc Hv. induction ds as [| d ds IH]; [by right; left |].
  rewrite !explore_cons, Hr, Hc, Hv.
  destruct (in_bounds g _ _); [| done].
  destruct (mget (blocked g) _ _) as [[] |]; simpl; [done | | by left].
  destruct (mget (visited s2) _ _) as [[] |]; simpl; [apply IH | | by left].
  right. right. eauto.
Qed.

Lemma lookahead_view g s1 s2 nr nc ds :
  visited s1 = visited s2 →
  (lookahead g s1 nr nc ds = None ∧ lookahead g s2 nr nc ds = None)
  ∨ (lookahead g s1 nr nc ds = Some None ∧ lookahead g s2 nr nc ds = Some None)
  ∨ (lookahead g s1 nr nc ds = Some <$> step_back s1 nr nc
     ∧ lookahead g s2 nr nc ds = Some <$> step_back s2 nr nc).
Proof.
  intros Hv. induction ds as [| d ds IH]; [by right; left |].
  rewrite !lookahead_cons, Hv.
  destruct (in_bounds g _ _); [| done].
  destruct (mget (blocked g) _ _) as [[] |]; simpl; [done | | by left].
  destruct (mget (visited s2) _ _) as [[] |]; simpl; [apply IH | | by left].
  right. right. eauto.
Qed.

Lemma reposition_view g s1 s2 ds :
  cr s1 = cr s2 → cc s1 = cc s2 → visited s1 = visited s2 →
  (reposition g s1 ds = None ∧ reposition g s2 ds = None)
  ∨ (reposition g s1 ds = Some None ∧ reposition g s2 ds = Some None)
  ∨ (∃ nr nc, reposition g s1 ds = Some <$> step_back s1 nr nc
              ∧ reposition g s2 ds = Some <$> step_back s2 nr nc).
Proof.
  intros Hr Hc Hv. induction ds as [| d ds IH]; [by right; left |].
  rewrite !reposition_cons, Hr, Hc, Hv.
  pose proof (lookahead_view g s1 s2 (cr s2 + d.1) (cc s2 + d.2) dirs Hv) as Hla.
  revert Hla.
  generalize (lookahead g s1 (cr s2 + d.1) (cc s2 + d.2) dirs)
             (lookahead g s2 (cr s2 + d.1) (cc s2 + d.2) dirs).
  intros la1 la2 Hla.
  destruct (in_bounds g _ _); [| apply IH].
  destruct (mget (blocked g) _ _) as [[] |]; simpl; [apply IH | | by left].
  destruct (mget (visited s2) _ _) as [[] |]; simpl; [| apply IH | by left].
  destruct Hla as [[-> ->] | [[-> ->] | [-> ->]]]; simpl; [by left | apply IH |].
  right. right. exists (cr s2 + d.1), (cc s2 + d.2).
  by destruct (step_back s1 _ _), (step_back s2 _ _).
Qed.

Lemma enter_view g cap1 cap2 s1 s2 nr nc s1' s2' :
  walker_ok g cap1 s1 → walker_ok g cap2 s2 → same_view s1 s2 →
  enter s1 nr nc = Some s1' → enter s2 nr nc = Some s2' →
  same_view s1' s2'.
Proof.
  intros Hok1 Hok2 (_ & _ & Hv & Hlen & Hu & Ht). unfold enter.
  intros (v1 & Hv1 & (pr1 & Hpr1 & (pc1 & Hpc1 & [= <-])%bind_Some)%bind_Some)%bind_Some.
  intros (v2 & Hv2 & (pr2 & Hpr2 & (pc2 & Hpc2 & [= <-])%bind_Some)%bind_Some)%bind_Some.
  unfold same_view. simpl. split_and!; try done; try lia.
  - rewrite Hv in Hv1. congruence.
  - destruct Hok1, Hok2. unfold trail at 1 2. simpl.
    rewrite (trail_push s1 nr nc pr1 pc1), (trail_push s2 nr nc pr2 pc2);
      [by rewrite Ht | lia..| done | done | lia | lia | done | done].
Qed.

Lemma step_back_view g cap1 cap2 s1 s2 nr nc s1' s2' :
  walker_ok g cap1 s1 → walker_ok g cap2 s2 → same_view s1 s2 →
  step_back s1 nr nc = Some s1' → step_back s2 nr nc = Some s2' →
  same_view s1' s2'.
Proof.
  intros Hok1 Hok2 (_ & _ & Hv & Hlen & Hu & Ht). unfold step_back.
  intros (pr1 & Hpr1 & (pc1 & Hpc1 & [= <-])%bind_Some)%bind_Some.
  intros (pr2 & Hpr2 & (pc2 & Hpc2 & [= <-])%bind_Some)%bind_Some.
  unfold same_view. simpl. split_and!; try done; try lia.
  destruct Hok1, Hok2. unfold trail at 1 2. simpl.
  rewrite (trail_push s1 nr nc pr1 pc1), (trail_push s2 nr nc pr2 pc2);
    [by rewrite Ht | lia..| done | done | lia | lia | done | done].
Qed.

Lemma step_hit g s (o : option walker) :
  explore g s dirs = Some <$> o ∨
  (explore g s dirs = Some None ∧ reposition g s dirs = Some <$> o) →
  step g s = Some <$> o.
Proof.
  unfold step. intros [-> | [-> ->]]; by destruct o.
Qed.

Lemma step_moves g cap s :
  Grid_wf g → walker_ok g cap s → pathLen s < cap →
  step g s = Some None
  ∨ ∃ s', step g s = Some (Some s') ∧ walker_ok g cap s'
          ∧ pathLen s' = pathLen s + 1.
Proof.
  intros Hwf Hok Hroom.
  destruct (step_cases g Hwf cap s Hok Hroom)
    as [(? & _) | (s' & p & ? & _ & ? & ?)]; eauto.
Qed.

Lemma step_view g cap1 cap2 s1 s2 :
  Grid_wf g → walker_ok g cap1 s1 → walker_ok g cap2 s2 →
  pathLen s1 < cap1 → pathLen s2 < cap2 → same_view s1 s2 →
  (step g s1 = Some None ∧ step g s2 = Some None)
  ∨ (∃ s1' s2', step g s1 = Some (Some s1') ∧ step g s2 = Some (Some s2')
       ∧ same_view s1' s2'
       ∧ walker_ok g cap1 s1' ∧ walker_ok g cap2 s2'
       ∧ pathLen s1' = pathLen s1 + 1).
Proof.
  intros Hwf Hok1 Hok2 Hroom1 Hroom2 Hview.
  pose proof Hview as (Hr & Hc & Hv & _).
  assert (∀ (mk : walker → Z → Z → option walker) nr nc,
            step g s1 = Some <$> mk s1 nr nc →
            step g s2 = Some <$> mk s2 nr nc →
            (∀ s1' s2', mk s1 nr nc = Some s1' → mk s2 nr nc = Some s2' →
                        same_view s1' s2') →
            ∃ s1' s2', step g s1 = Some (Some s1') ∧ step g s2 = Some (Some s2')
              ∧ same_view s1' s2'
              ∧ walker_ok g cap1 s1' ∧ walker_ok g cap2 s2'
              ∧ pathLen s1' = pathLen s1 + 1) as Hmove.
  { intros mk nr nc H1 H2 Hsame.
    destruct (step_moves g cap1 s1 Hwf Hok1 Hroom1) as [E1 | (s1' & E1 & ? & ?)];
      rewrite E1 in H1; destruct (mk s1 nr nc) eqn:M1; simplify_eq/=.
    destruct (step_moves g cap2 s2 Hwf Hok2 Hroom2) as [E2 | (s2' & E2 & ? & ?)];
      rewrite E2 in H2; destruct (mk s2 nr nc) eqn:M2; simplify_eq/=.
    eexists _, _. split_and!; eauto. }
  destruct (explore_view g s1 s2 dirs Hr Hc Hv)
    as [[E1 _] | [[E1 E2] | (nr & nc & E1 & E2)]].
  - destruct (step_moves g cap1 s1 Hwf Hok1 Hroom1) as [S | (? & S & _)];
      unfold step in S; rewrite E1 in S; done.
  - destruct (reposition_view g s1 s2 dirs Hr Hc Hv)
      as [[R1 _] | [[R1 R2] | (nr & nc & R1 & R2)]].
    + destruct (step_moves g cap1 s1 Hwf Hok1 Hroom1) as [S | (? & S & _)];
        rewrite (step_reposition g s1 E1), R1 in S; done.
    + left. by rewrite (step_reposition g s1 E1), (step_reposition g s2 E2).
    + right. apply (Hmove step_back nr nc).
      * apply step_hit. right. done.
      * apply step_hit. right. done.
      * intros s1' s2' M1 M2.
        exact (step_back_view g cap1 cap2 s1 s2 nr nc s1' s2' Hok1 Hok2 Hview M1 M2).
  - right. apply (Hmove enter nr nc).
    + apply step_hit. by left.
    + apply step_hit. by left.
    + intros s1' s2' M1 M2.
      exact (enter_view g cap1 cap2 s1 s2 nr nc s1' s2' Hok1 Hok2 Hview M1 M2).
Qed.

Lemma walk_view g cap1 cap2 n :
  Grid_wf g →
  ∀ s1 s2,
    walker_ok g cap1 s1 → walker_ok g cap2 s2 →
    pathLen s1 + Z.of_nat n <= cap1 → pathLen s2 + Z.of_nat n <= cap2 →
    same_view s1 s2 →
    ∃ s1' s2', walk g n s1 = Some s1' ∧ walk g n s2 = Some s2'
      ∧ same_view s1' s2'
      ∧ walker_ok g cap1 s1' ∧ walker_ok g cap2 s2'.
Proof.
  intros Hwf. induction n as [| n IH]; intros s1 s2 Hok1 Hok2 Hr1 Hr2 Hview.
  - exists s1, s2. by split_and!.
  - simpl.
    destruct (step_view g cap1 cap2 s1 s2 Hwf Hok1 Hok2) as
      [[-> ->] | (s1' & s2' & -> & -> & Hview' & Hok1' & Hok2' & Hlen)];
      [lia | lia | done | |]; simpl.
    + exists s1, s2. by split_and!.
    + pose proof Hview as (_ & _ & _ & Hl & _).
      pose proof Hview' as (_ & _ & _ & Hl' & _).
      apply IH; [done | done | lia | lia | done].
Qed.

Lemma start_walker_view g mp1 mp2 p s1 s2 :
  Grid_wf g → is_free g p →
  start_walker g mp1 p.1 p.2 = Some s1 →
  start_walker g mp2 p.1 p.2 = Some s2 →
  same_view s1 s2.
Proof.
  intros Hwf Hfree H1 H2.
  destruct (start_walker_inv g Hwf mp1 p s1 Hfree H1) as (_ & Ht1 & Hl1 & Hu1 & _).
  destruct (start_walker_inv g Hwf mp2 p s2 Hfree H2) as (_ & Ht2 & Hl2 & Hu2 & _).
  unfold start_walker in H1, H2.
  apply bind_Some in H1 as (n1 & _ & H1). apply bind_Some in H2 as (n2 & _ & H2).
  apply bind_Some in H1
    as (v1 & Hv1 & (pr1 & _ & (pc1 & _ & [= <-])%bind_Some)%bind_Some).
  apply bind_Some in H2
    as (v2 & Hv2 & (pr2 & _ & (pc2 & _ & [= <-])%bind_Some)%bind_Some).
  unfold same_view. simpl in *. split_and!; congruence.
Qed.

(** What [solve_path] does on a grid with a free cell, in terms of the step
    loop. *)
Lemma solve_path_run g mp :
  Grid_wf g → 0 <= mp < INT_MAX →
  (find_start g = Some None
   ∧ (∀ r c, in_bounds g r c = true → mget (blocked g) r c = Some true)
   ∧ solve_path g mp = Some (Report [] 0))
  ∨ (∃ p s0 s, find_start g = Some (Some p) ∧ first_free g p
       ∧ start_walker g mp p.1 p.2 = Some s0
       ∧ trail s0 = [p] ∧ pathLen s0 = 1 ∧ unique_count s0 = 1
       ∧ walker_ok g (mp + 1) s0
       ∧ walk g (Z.to_nat mp) s0 = Some s
       ∧ walker_ok g (mp + 1) s
       ∧ solve_path g mp = Some (Report (trail s) (unique_count s))).
Proof.
  intros Hwf Hmp.
  destruct (find_start_cases g (Grid_wf_readable g Hwf))
    as [[Hnone Hall] | (p & Hp & Hfirst)].
  - left. split_and!; [done.. |]. unfold solve_path. by rewrite Hnone.
  - right. pose proof Hfirst as [Hfree _].
    destruct (start_walker_total g mp p Hfree Hmp) as [s0 Hs0].
    destruct (start_walker_inv g Hwf mp p s0 Hfree Hs0) as (_ & Ht & Hl & Hu & Hok).
    destruct (walk_ok g Hwf (mp + 1) (Z.to_nat mp) s0 Hok) as (s & Hs & Hok' & _);
      [lia |].
    exists p, s0, s. split_and!; try done.
    rewrite (solve_path_unfold g mp p s0 Hp Hs0), Hs. done.
Qed.

(** ** Further properties of [solve_path] *)

Lemma first_free_unique g p q : first_free g p → first_free g q → p = q.
Proof.
  intros [Hp Hpmin] [Hq Hqmin].
  specialize (Hpmin q Hq). specialize (Hqmin p Hp).
  destruct p, q. unfold row_major_le in *. simpl in *. f_equal; lia.
Qed.

Lemma here_last g cap s p :
  walker_ok g cap s → last (trail s) = Some p → here s = p.
Proof. intros Hok Hp. rewrite (ok_here _ _ _ Hok) in Hp. congruence. Qed.

(** X6: with a budget of zero, or when no neighbour of the start cell is
    free, [solve_path] prints just the start cell and a count of 1, for
    every budget [0 <= mp < INT_MAX]. *)
Theorem solve_path_stays_put (g : Grid) (mp : Z) (p : Z * Z) :
  Grid_wf g → 0 <= mp < INT_MAX → first_free g p →
  mp = 0 ∨ (∀ d, d ∈ dirs → ¬ is_free g (shift p d)) →
  solve_path g mp = Some (Report [p] 1).
Proof.
  intros Hwf Hmp Hfirst Hcase.
  destruct (solve_path_run g mp Hwf Hmp)
    as [(_ & Hall & _) | (p' & s0 & s & _ & Hfirst' & _ & Ht & Hl & Hu & Hok & Hs & _ & ->)].
  { destruct Hfirst as [[Hin Hfree] _]. rewrite Hall in Hfree by done. done. }
  rewrite (first_free_unique g p' p Hfirst' Hfirst) in *.
  assert (s = s0) as ->; [| by rewrite Ht, Hu].
  destruct Hcase as [-> | Halone]; [simpl in Hs; congruence |].
  assert (here s0 = p) as Hhere by (eapply here_last; [done | by rewrite Ht]).
  destruct (Z.to_nat mp) as [| n] eqn:Hn; [simpl in Hs; congruence |].
  rewrite walk_stuck in Hs; [congruence |].
  destruct (step_kinds g (mp + 1) s0 Hwf Hok)
    as [(? & _) | [(d & s' & Hd & [Hfree _] & _) | (d & s' & Hd & _ & [[Hfree _] _] & _)]];
    [lia | done | |]; rewrite Hhere in Hfree; by destruct (Halone d).
Qed.

Lemma solve_path_stays_put_witness :
  solve_path (mkGrid 2 2 [[true; false]; [true; true]]) 7
  = Some (Report [(0, 1)] 1).
Proof.
  apply solve_path_stays_put.
  - reflexivity.
  - unfold INT_MAX. lia.
  - split; [split; reflexivity |].
    intros [r c] [Hin%in_bounds_spec Hq]. simpl in *.
    unfold row_major_le. simpl.
    assert (r = 0 ∨ r = 1) as [-> | ->] by lia;
      (assert (c = 0 ∨ c = 1) as [-> | ->] by lia); try lia; discriminate Hq.
  - right. intros d Hd [Hin Hfree]. revert Hin Hfree.
    unfold dirs, dr, dc in Hd. simpl in Hd.
    repeat (apply elem_of_cons in Hd as [-> | Hd]; [vm_compute; congruence |]).
    by apply elem_of_nil in Hd.
Defined.

(** X7: with a negative budget and a free cell in the grid, [solve_path]
    stores the start cell at index 0 of path arrays that have no cell
    ([max_path_len <= 0]): an out-of-bounds write. *)
Theorem solve_path_negative_budget (g : Grid) (mp : Z) (q : Z * Z) :
  Grid_wf g → is_free g q → mp < 0 → solve_path g mp = None.
Proof.
  intros Hwf [Hin Hq] Hmp. unfold solve_path.
  destruct (find_start_cases g (Grid_wf_readable g Hwf))
    as [[_ Hall] | (p & -> & [Hfree _])].
  { rewrite Hall in Hq by done. done. }
  simpl. destruct p as [r c].
  destruct (start_walker g mp r c) as [s0 |] eqn:Hs0; [| done].
  destruct (start_walker_inv g Hwf mp (r, c) s0 Hfree Hs0) as [? _]. lia.
Qed.

Lemma solve_path_negative_budget_witness : solve_path grid3 (-1) = None.
Proof.
  apply (solve_path_negative_budget grid3 (-1) (0, 0));
    [reflexivity | split; reflexivity | lia].
Defined.

(** X19: with [movement_points = INT_MAX] and a free cell in the grid,
    [max_path_len = movement_points + 1] overflows [int]: the behaviour of
    [solve_path] is undefined and no report is printed. *)
Theorem solve_path_budget_overflow (g : Grid) (q : Z * Z) :
  Grid_wf g → is_free g q → solve_path g INT_MAX = None.
Proof.
  intros Hwf [Hin Hq]. unfold solve_path.
  destruct (find_start_cases g (Grid_wf_readable g Hwf))
    as [[_ Hall] | (p & -> & [Hfree _])].
  { rewrite Hall in Hq by done. done. }
  simpl. destruct p as [r c].
  destruct (start_walker g INT_MAX r c) as [s0 |] eqn:Hs0; [| done].
  destruct (start_walker_inv g Hwf INT_MAX (r, c) s0 Hfree Hs0) as [? _]. lia.
Qed.

Lemma solve_path_budget_overflow_witness : solve_path grid3 INT_MAX = None.
Proof.
  apply (solve_path_budget_overflow grid3 (0, 0));
    [reflexivity | split; reflexivity].
Defined.

Lemma unvisited_same_visited g s s' q :
  visited s' = visited s → unvisited g s q → unvisited g s' q.
Proof. unfold unvisited. by intros ->. Qed.

Lemma step_thrifty g cap s s' :
  Grid_wf g → walker_ok g cap s → pathLen s < cap → thrifty g s →
  step g s = Some (Some s') → thrifty g s'.
Proof.
  intros Hwf Hok Hroom Hthrift Hstep.
  destruct (step_kinds g cap s Hwf Hok Hroom)
    as [(E & _) | [(d & s1 & Hd & Hnew & E & Hhere & Ht & Hu & Hok')
                  | (d & s1 & Hd & Hnone & Hprom & E & Hhere & Ht & Hu & Hv & Hok')]];
    rewrite E in Hstep; simplify_eq.
  - left.
    assert (pathLen s' = pathLen s + 1) as ->.
    { rewrite <- (pathLen_trail g cap s'), <- (pathLen_trail g cap s) by done.
      rewrite Ht, length_app. simpl. lia. }
    destruct Hthrift as [? | [? _]]; lia.
  - right.
    assert (pathLen s' = pathLen s + 1) as ->.
    { rewrite <- (pathLen_trail g cap s'), <- (pathLen_trail g cap s) by done.
      rewrite Ht, length_app. simpl. lia. }
    destruct Hthrift as [? | [_ (d0 & Hd0 & Hfresh)]];
      [| by destruct (Hnone d0)].
    split; [lia |].
    destruct Hprom as [_ (d' & Hd' & Hfresh)].
    exists d'. split; [done |]. rewrite Hhere.
    by apply (unvisited_same_visited g s).
Qed.

Lemma walk_thrifty g cap n :
  Grid_wf g →
  ∀ s, walker_ok g cap s → pathLen s + Z.of_nat n <= cap → thrifty g s →
       ∃ s', walk g n s = Some s' ∧ walker_ok g cap s' ∧ thrifty g s'.
Proof.
  intros Hwf. induction n as [| n IH]; intros s Hok Hroom Hthrift; simpl.
  - by exists s.
  - destruct (step_moves g cap s Hwf Hok) as [-> | (s1 & Hs1 & Hok1 & Hlen)];
      [lia | by exists s |].
    rewrite Hs1. simpl. apply IH; [done | lia |].
    eapply (step_thrifty g cap s); [done.. | lia | done | done].
Qed.

(** X8: for every budget [0 <= mp < INT_MAX] the printed path is never more
    than twice as long as the printed number of unique squares, and never
    shorter than that number. *)
Theorem path_at_most_twice_unique (g : Grid) (mp : Z) :
  Grid_wf g → 0 <= mp < INT_MAX →
  ∃ rep, solve_path g mp = Some rep
    ∧ unique_squares rep <= Z.of_nat (length (path rep))
        <= 2 * unique_squares rep.
Proof.
  intros Hwf Hmp.
  destruct (solve_path_run g mp Hwf Hmp)
    as [(_ & _ & ->) | (p & s0 & s & _ & _ & _ & Ht & Hl & Hu & Hok & Hs & _ & ->)].
  { eexists. split; [done |]. simpl. lia. }
  destruct (walk_thrifty g (mp + 1) (Z.to_nat mp) Hwf s0 Hok)
    as (s' & Hs' & Hok' & Hthrift); [lia | left; lia |].
  assert (s' = s) as -> by congruence.
  eexists. split; [done |]. simpl.
  rewrite (pathLen_trail g (mp + 1) s Hok'), (ok_unique _ _ _ Hok').
  pose proof (distinct_le_length (trail s)) as Hle.
  rewrite (pathLen_trail g (mp + 1) s Hok') in Hle.
  rewrite <- (ok_unique _ _ _ Hok').
  destruct Hthrift as [? | [? _]]; rewrite (ok_unique _ _ _ Hok') in *; lia.
Qed.

Lemma path_at_most_twice_unique_witness :
  ∃ rep, solve_path grid_nook 4 = Some rep
    ∧ unique_squares rep <= Z.of_nat (length (path rep))
        <= 2 * unique_squares rep.
Proof.
  apply (path_at_most_twice_unique grid_nook 4); [reflexivity | unfold INT_MAX; lia].
Defined.

(** Running the loop on the start states of two budgets [mp <= mp']: after
    the first [mp] iterations both are at the same point of the same path. *)
Lemma walk_two_budgets g mp mp' p s0 s0' s :
  Grid_wf g → 0 <= mp <= mp' → is_free g p →
  start_walker g mp p.1 p.2 = Some s0 →
  start_walker g mp' p.1 p.2 = Some s0' →
  walk g (Z.to_nat mp) s0 = Some s →
  ∃ s1', walk g (Z.to_nat mp) s0' = Some s1'
    ∧ same_view s s1'
    ∧ walker_ok g (mp + 1) s ∧ walker_ok g (mp' + 1) s1'
    ∧ walk g (Z.to_nat mp') s0' = walk g (Z.to_nat mp' - Z.to_nat mp) s1'.
Proof.
  intros Hwf Hmp Hfree Hs0 Hs0' Hs.
  destruct (start_walker_inv g Hwf mp p s0 Hfree Hs0) as (_ & _ & Hl & _ & Hok).
  destruct (start_walker_inv g Hwf mp' p s0' Hfree Hs0') as (_ & _ & Hl' & _ & Hok').
  destruct (walk_view g (mp + 1) (mp' + 1) (Z.to_nat mp) Hwf s0 s0' Hok Hok')
    as (s1 & s1' & Hs1 & Hs1' & Hview & Hok1 & Hok1'); [lia | lia | |].
  { by eapply start_walker_view. }
  assert (s1 = s) as -> by congruence.
  exists s1'. split_and!; try done.
  replace (Z.to_nat mp') with (Z.to_nat mp + (Z.to_nat mp' - Z.to_nat mp))%nat
    at 1 by lia.
  by rewrite walk_add, Hs1'.
Qed.

(** X9: a larger budget only extends the walk: for [0 <= mp <= mp' <
    INT_MAX] the path printed for budget [mp] is a prefix of the path printed
    for budget [mp'], and the count of unique squares does not decrease. *)
Theorem budget_monotone (g : Grid) (mp mp' : Z) :
  Grid_wf g → 0 <= mp <= mp' → mp' < INT_MAX →
  ∃ rep rep', solve_path g mp = Some rep ∧ solve_path g mp' = Some rep'
    ∧ path rep `prefix_of` path rep'
    ∧ unique_squares rep <= unique_squares rep'.
Proof.
  intros Hwf Hmp Hmax.
  destruct (solve_path_run g mp Hwf)
    as [(Hnone & _ & ->) | (p & s0 & s & Hp & [Hfree _] & Hs0 & _ & _ & _ & _ & Hs & _ & ->)];
    [lia | |];
    (destruct (solve_path_run g mp' Hwf)
      as [(Hnone' & _ & ->)
         | (p' & s0' & s' & Hp' & _ & Hs0' & _ & _ & _ & _ & Hs' & Hoks' & ->)];
      [lia | |]); try congruence.
  { eexists _, _. split_and!; [done | done | done | simpl; lia]. }
  assert (p' = p) as -> by congruence.
  destruct (walk_two_budgets g mp mp' p s0 s0' s Hwf Hmp Hfree Hs0 Hs0' Hs)
    as (s1' & _ & Hview & Hok & Hok1' & Hrest).
  rewrite Hrest in Hs'.
  destruct (walk_ok g Hwf (mp' + 1) (Z.to_nat mp' - Z.to_nat mp) s1' Hok1')
    as (s2 & Hs2 & _ & _ & l & Hl).
  { pose proof Hview as (_ & _ & _ & Hlen & _).
    destruct Hok as [_ _ _ ? _ _ _ _ _]. lia. }
  assert (s2 = s') as -> by congruence.
  assert (trail s `prefix_of` trail s') as Hpre.
  { destruct Hview as (_ & _ & _ & _ & _ & ->). by exists l. }
  eexists _, _. split_and!; [done | done | done |]. simpl.
  rewrite (ok_unique _ _ _ Hok), (ok_unique _ _ _ Hoks').
  by apply distinct_prefix.
Qed.

Lemma budget_monotone_witness :
  ∃ rep rep', solve_path grid_nook 2 = Some rep ∧ solve_path grid_nook 4 = Some rep'
    ∧ path rep `prefix_of` path rep'
    ∧ unique_squares rep <= unique_squares rep'.
Proof.
  apply (budget_monotone grid_nook 2 4); [reflexivity | lia | unfold INT_MAX; lia].
Defined.

(** The final state of a run that printed fewer than [movement_points + 1]
    cells: the loop left through its [break]. *)
Lemma solve_path_early_stop g mp rep :
  Grid_wf g → 0 <= mp → solve_path g mp = Some rep →
  Z.of_nat (length (path rep)) < mp + 1 →
  (rep = Report [] 0 ∧ find_start g = Some None)
  ∨ (∃ p s0 s, find_start g = Some (Some p) ∧ is_free g p
       ∧ start_walker g mp p.1 p.2 = Some s0
       ∧ walk g (Z.to_nat mp) s0 = Some s
       ∧ rep = Report (trail s) (unique_count s)
       ∧ walker_ok g (mp + 1) s
       ∧ pathLen s < mp + 1
       ∧ step g s = Some None).
Proof.
  intros Hwf Hmp0 Hrep Hshort.
  destruct (solve_path_Some g Hwf mp rep Hrep) as [? | Hmp]; [by left |].
  destruct (solve_path_run g mp Hwf Hmp)
    as [(Hnone & _ & E) | (p & s0 & s & Hp & [Hfree _] & Hs0 & _ & Hl & _ & Hok0 & Hs & Hok & E)];
    rewrite E in Hrep; injection Hrep as <-; [by left | right].
  simpl in Hshort. rewrite (pathLen_trail g (mp + 1) s Hok) in Hshort.
  destruct (walk_full_or_stuck g (mp + 1) (Z.to_nat mp) s0 Hwf Hok0)
    as (s' & Hs' & _ & Hend); [lia |].
  assert (s' = s) as -> by congruence.
  destruct Hend as [? | [? Hstuck]]; [lia |].
  exists p, s0, s. by split_and!.
Qed.

(** X10: when [solve_path] stops before its budget is used up, a larger
    budget [mp' < INT_MAX] changes nothing: it prints the same path and the
    same count. *)
Theorem early_stop_is_final (g : Grid) (mp mp' : Z) (rep : report) :
  Grid_wf g → 0 <= mp <= mp' → mp' < INT_MAX →
  solve_path g mp = Some rep →
  Z.of_nat (length (path rep)) < mp + 1 →
  solve_path g mp' = Some rep.
Proof.
  intros Hwf Hmp Hmax Hrep Hshort.
  destruct (solve_path_early_stop g mp rep Hwf) as
    [[-> Hnone] | (p & s0 & s & Hp & Hfree & Hs0 & Hs & -> & Hok & Hroom & Hstuck)];
    [lia | done | done | |].
  { unfold solve_path. by rewrite Hnone. }
  destruct (start_walker_total g mp' p Hfree) as [s0' Hs0']; [lia |].
  destruct (walk_two_budgets g mp mp' p s0 s0' s Hwf Hmp Hfree Hs0 Hs0' Hs)
    as (s1' & _ & Hview & _ & Hok1' & Hrest).
  assert (step g s1' = Some None) as Hstuck'.
  { pose proof Hview as (_ & _ & _ & Hlen & _).
    destruct (step_view g (mp + 1) (mp' + 1) s s1' Hwf Hok Hok1')
      as [[_ ?] | (? & ? & ? & _)]; [lia | lia | done | done | congruence]. }
  rewrite (solve_path_unfold g mp' p s0' Hp Hs0'), Hrest, (walk_stuck _ _ _ Hstuck').
  simpl. destruct Hview as (_ & _ & _ & _ & -> & ->). done.
Qed.

Lemma early_stop_is_final_witness :
  solve_path grid3 100 = Some (Report [(0, 0); (0, 1); (0, 2)] 3).
Proof.
  apply (early_stop_is_final grid3 5 100);
    [reflexivity | lia | unfold INT_MAX; lia | reflexivity | simpl; lia].
Defined.

(** X11: when [solve_path] stops before its budget is used up, every free
    neighbour of the last cell of the path is on the path, and so is every
    free neighbour of those neighbours: no free cell within two steps is
    left unvisited. *)
Theorem early_stop_exhausted (g : Grid) (mp : Z) (rep : report) (p : Z * Z) :
  Grid_wf g → 0 <= mp →
  solve_path g mp = Some rep →
  Z.of_nat (length (path rep)) < mp + 1 →
  last (path rep) = Some p →
  ∀ d d', d ∈ dirs → d' ∈ dirs →
    is_free g (shift p d) →
    shift p d ∈ path rep
    ∧ (is_free g (shift (shift p d) d') → shift (shift p d) d' ∈ path rep).
Proof.
  intros Hwf Hmp Hrep Hshort Hlast d d' Hd Hd' Hfree.
  destruct (solve_path_early_stop g mp rep Hwf Hmp Hrep Hshort) as
    [[-> _] | (_ & _ & s & _ & _ & _ & _ & -> & Hok & Hroom & Hstuck)];
    [done |].
  simpl in *. apply (here_last g (mp + 1) s p Hok) in Hlast.
  destruct (step_kinds g (mp + 1) s Hwf Hok Hroom)
    as [(_ & Hnone & Hnone') | [(? & ? & _ & _ & E & _) | (? & ? & _ & _ & _ & E & _)]];
    [| congruence..].
  rewrite Hlast in Hnone, Hnone'.
  assert (∀ q, is_free g q → mget (visited s) q.1 q.2 = Some false ∨ q ∈ trail s)
    as Hread.
  { intros q Hq.
    destruct (read_visited g s (ok_shape _ _ _ Hok) q) as [[] Hv]; [apply Hq | |].
    - right. by apply (ok_visited _ _ _ Hok).
    - by left. }
  assert (shift p d ∈ trail s) as Hin.
  { destruct (Hread _ Hfree) as [Hv | ?]; [| done].
    destruct (Hnone d Hd). by split. }
  split; [done |]. intros Hfree'.
  destruct (Hread _ Hfree') as [Hv | ?]; [| done].
  destruct (Hnone' d Hd). split.
  - split; [done |]. by apply (ok_visited _ _ _ Hok).
  - exists d'. split; [done | by split].
Qed.

Lemma early_stop_exhausted_witness :
  shift (0, 2) (0, -1) ∈ [(0, 0); (0, 1); (0, 2)]
  ∧ (is_free grid3 (shift (shift (0, 2) (0, -1)) (0, -1)) →
     shift (shift (0, 2) (0, -1)) (0, -1) ∈ [(0, 0); (0, 1); (0, 2)]).
Proof.
  refine (early_stop_exhausted grid3 5 (Report [(0, 0); (0, 1); (0, 2)] 3) (0, 2)
            _ _ _ _ _ (0, -1) (0, -1) _ _ _);
    [reflexivity | lia | reflexivity | simpl; lia | reflexivity
    | rewrite dirs_eq, !elem_of_cons; auto
    | rewrite dirs_eq, !elem_of_cons; auto
    | split; reflexivity].
Defined.

(** ** Further properties of [generate_blocked] *)

Lemma tally_free_lt g p :
  Grid_wf g → is_free g p → tally (blocked g) < rows g * cols g.
Proof.
  intros (_ & _ & Hshape)%well_formed_shape [_ Hfree].
  rewrite <- (length_concat_shape _ _ _ Hshape).
  apply mget_unfold in Hfree as (_ & _ & row & Hrow & Hcell).
  unfold tally, ones. apply inj_lt.
  apply (length_filter_lt _ _ false); [| done].
  apply list_elem_of_In, in_concat. exists row.
  split; apply list_elem_of_In; by eapply list_elem_of_lookup_2.
Qed.

Lemma tally_full_inv g :
  Grid_wf g → tally (blocked g) = rows g * cols g →
  ∀ r c, in_bounds g r c = true → is_blocked g (r, c).
Proof.
  intros Hwf Hfull.
  destruct (find_start_cases g (Grid_wf_readable g Hwf))
    as [[_ Hall] | (p & _ & [Hfree _])]; [done |].
  pose proof (tally_free_lt g p Hwf Hfree). lia.
Qed.

(** What a call that runs on [rnd] leaves behind, by outcome. *)
Lemma generate_blocked_outcome g n rnd :
  Grid_wf g → Forall (λ v, 0 <= v) rnd →
  ∃ out, generate_blocked g n rnd = Some out
    ∧ Grid_wf (grid_of out)
    ∧ rows (grid_of out) = rows g ∧ cols (grid_of out) = cols g
    ∧ (∀ p, is_blocked g p → is_blocked (grid_of out) p)
    ∧ match out with
      | Returned g' =>
          tally (blocked g') - tally (blocked g)
          = Z.max 0 (Z.min n (rows g * cols g - tally (blocked g)))
      | Sampling g' placed =>
          tally (blocked g') - tally (blocked g) = placed
      end.
Proof.
  intros Hwf Hrnd. unfold generate_blocked.
  destruct (Z.leb_spec n 0) as [Hn | Hn].
  { exists (Returned g). simpl. split_and!; try done; lia. }
  rewrite (available_tally g Hwf). simpl.
  set (avail := rows g * cols g - tally (blocked g)).
  destruct (Z.leb_spec avail 0) as [Ha | Ha].
  { exists (Returned g). simpl. split_and!; try done; lia. }
  destruct (place_spec rnd g (if avail <? n then avail else n) 0 Hwf Hrnd)
    as (out & -> & Hwfo & Hro & Hco & Hkeep & Hcount).
  { destruct (avail <? n); lia. }
  exists out. split_and!; try done.
  destruct (Z.ltb_spec avail n); destruct out; simpl in *; lia.
Qed.

(** X12: asked for at least as many cells as are free, a call that returns
    has blocked every cell of the grid. *)
Theorem generate_blocked_fills (g : Grid) (n : Z) (rnd : list Z) (g' : Grid) :
  Grid_wf g → Forall (λ v, 0 <= v) rnd →
  rows g * cols g - tally (blocked g) <= n →
  generate_blocked g n rnd = Some (Returned g') →
  ∀ r c, in_bounds g' r c = true → is_blocked g' (r, c).
Proof.
  intros Hwf Hrnd Hn Hret.
  destruct (generate_blocked_outcome g n rnd Hwf Hrnd)
    as (out & Hout & Hwf' & HR & HC & _ & Hcount).
  rewrite Hret in Hout. injection Hout as <-. simpl in *.
  pose proof (tally_bound g Hwf).
  apply (tally_full_inv g' Hwf'). rewrite HR, HC. lia.
Qed.

Lemma generate_blocked_fills_witness :
  is_blocked (mkGrid 2 3 [[true; true; true]; [true; true; true]]) (1, 1).
Proof.
  refine (generate_blocked_fills grid_nook 9
            [0; 0; 0; 1; 2; 2; 1; 0; 1; 1; 3; 1; 0; 2] _ _ _ _ _ 1 1 _).
  - reflexivity.
  - repeat constructor; lia.
  - vm_compute. congruence.
  - reflexivity.
  - reflexivity.
Defined.

Lemma place_can_return (k : nat) :
  ∀ g num placed,
    Grid_wf g → num - placed = Z.of_nat k →
    Z.of_nat k <= rows g * cols g - tally (blocked g) →
    ∃ rnd g', Forall (λ v, 0 <= v) rnd
      ∧ length rnd = (2 * k)%nat
      ∧ place g num placed rnd = Some (Returned g').
Proof.
  induction k as [| k IH]; intros g num placed Hwf Hk Hfree.
  - exists [], g. split_and!; [done | done |]. simpl.
    by rewrite (proj2 (Z.ltb_ge placed num)) by lia.
  - destruct (find_start_cases g (Grid_wf_readable g Hwf))
      as [[_ Hall] | ([r c] & _ & [[Hin Hcell] _])].
    { pose proof (tally_full g Hwf Hall). lia. }
    simpl in Hin, Hcell. pose proof Hin as [Hr Hc]%in_bounds_spec.
    destruct (well_formed_shape g Hwf) as (HR & HC & Hshape).
    pose proof (mset_Some (blocked g) r c true) as Hset.
    rewrite Hcell in Hset. specialize (Hset (mk_is_Some _ _ eq_refl)).
    set (m' := alter _ _ _) in Hset.
    assert (Grid_wf (with_blocked g m')) as Hwf'.
    { apply shape_well_formed; simpl; [done.. |]. by eapply mset_shape. }
    destruct (IH (with_blocked g m') num (placed + 1) Hwf')
      as (rnd & g' & Hrnd & Hlen & Hplace); [lia | |].
    { simpl. rewrite (tally_mset _ _ _ _ Hcell Hset). lia. }
    exists (r :: c :: rnd), g'. split_and!.
    + repeat constructor; [lia | lia | done].
    + simpl. lia.
    + simpl. rewrite (proj2 (Z.ltb_lt placed num)) by lia.
      unfold c_mod.
      rewrite (proj2 (Z.eqb_neq (rows g) 0)), (proj2 (Z.eqb_neq (cols g) 0)) by lia.
      simpl. rewrite !Z.rem_small by lia. rewrite Hcell. simpl.
      rewrite Hset. simpl. done.
Qed.

(** X13: the sampling loop can always finish: for every grid and request
    there are random values on which [generate_blocked] returns, having
    drawn two values for each cell it had to block. *)
Theorem generate_blocked_can_return (g : Grid) (n : Z) :
  Grid_wf g →
  ∃ rnd g', Forall (λ v, 0 <= v) rnd
    ∧ Z.of_nat (length rnd)
      = 2 * Z.max 0 (Z.min n (rows g * cols g - tally (blocked g)))
    ∧ generate_blocked g n rnd = Some (Returned g').
Proof.
  intros Hwf. unfold generate_blocked.
  destruct (Z.leb_spec n 0) as [Hn | Hn].
  { exists [], g. split_and!; [done | simpl; lia | done]. }
  rewrite (available_tally g Hwf). simpl.
  set (avail := rows g * cols g - tally (blocked g)).
  destruct (Z.leb_spec avail 0) as [Ha | Ha].
  { exists [], g. split_and!; [done | simpl; lia | done]. }
  set (num := if avail <? n then avail else n).
  assert (num = Z.min n avail) as Hnum.
  { unfold num. destruct (Z.ltb_spec avail n); lia. }
  destruct (place_can_return (Z.to_nat num) g num 0 Hwf)
    as (rnd & g' & Hrnd & Hlen & Hplace); [lia | fold avail; lia |].
  exists rnd, g'. split_and!; [done | lia | done].
Qed.

Lemma generate_blocked_can_return_witness :
  ∃ rnd g', Forall (λ v, 0 <= v) rnd
    ∧ Z.of_nat (length rnd)
      = 2 * Z.max 0 (Z.min 3 (2 * 3 - tally (blocked grid_nook)))
    ∧ generate_blocked grid_nook 3 rnd = Some (Returned g').
Proof. apply (generate_blocked_can_return grid_nook 3). reflexivity. Defined.

Lemma place_all_rejected rnd :
  ∀ g num placed,
    rows g ≠ 0 → cols g ≠ 0 → placed < num → all_rejected g rnd →
    place g num placed rnd = Some (Sampling g placed).
Proof.
  induction rnd as [rnd IH] using (induction_ltof1 _ (@length Z)).
  unfold ltof in IH. intros g num placed HR HC Hlt Hrej.
  destruct rnd as [| x [| y rnd]]; simpl;
    rewrite (proj2 (Z.ltb_lt placed num)) by lia; [done | done |].
  destruct Hrej as [Hcell Hrej]. unfold is_blocked in Hcell. simpl in Hcell.
  unfold c_mod.
  rewrite (proj2 (Z.eqb_neq (rows g) 0)), (proj2 (Z.eqb_neq (cols g) 0)) by done.
  simpl. rewrite Hcell. simpl. apply IH; [simpl; lia | done..].
Qed.

(** X14: a sample that names a blocked cell is rejected without effect:
    while every pair of random values names a blocked cell, the grid stays
    as it was, nothing is placed, and the loop keeps sampling. *)
Theorem generate_blocked_all_rejected (g : Grid) (n : Z) (rnd : list Z) :
  Grid_wf g → 0 < n → 0 < rows g * cols g - tally (blocked g) →
  all_rejected g rnd →
  generate_blocked g n rnd = Some (Sampling g 0).
Proof.
  intros Hwf Hn Ha Hrej. unfold generate_blocked.
  rewrite (proj2 (Z.leb_gt n 0)) by lia.
  rewrite (available_tally g Hwf). simpl.
  rewrite (proj2 (Z.leb_gt _ 0)) by lia.
  destruct (well_formed_shape g Hwf) as (HR & HC & _).
  apply place_all_rejected; [lia | lia | | done].
  destruct (_ <? n); lia.
Qed.

Lemma generate_blocked_all_rejected_witness :
  generate_blocked grid_nook 2 [1; 2; 3; 5; 1; 8; 7; 2] = Some (Sampling grid_nook 0).
Proof.
  apply generate_blocked_all_rejected;
    [reflexivity | lia | vm_compute; reflexivity |].
  simpl. unfold is_blocked. simpl. by repeat split.
Defined.

Lemma place_more rnd more :
  ∀ g num placed g',
    place g num placed rnd = Some (Returned g') →
    place g num placed (rnd ++ more) = Some (Returned g').
Proof.
  induction rnd as [rnd IH] using (induction_ltof1 _ (@length Z)).
  unfold ltof in IH. intros g num placed g'.
  destruct (Z.ltb_spec placed num) as [Hlt | Hge].
  - destruct rnd as [| x [| y rnd]]; simpl;
      rewrite (proj2 (Z.ltb_lt placed num)) by lia; [done | done |].
    destruct (c_mod x (rows g)) as [r |]; [| done]. simpl.
    destruct (c_mod y (cols g)) as [c |]; [| done]. simpl.
    destruct (mget (blocked g) r c) as [[] |]; [| | done]; simpl.
    + apply IH. simpl. lia.
    + destruct (mset (blocked g) r c true) as [m |]; [| done]. simpl.
      apply IH. simpl. lia.
  - assert (∀ l, place g num placed l = Some (Returned g)) as Hret.
    { intros l. destruct l; simpl; by rewrite (proj2 (Z.ltb_ge placed num)). }
    by rewrite !Hret.
Qed.

(** X15: once [generate_blocked] has returned it has stopped drawing: random
    values that would come after the ones it used do not change the
    grid it returns. *)
Theorem generate_blocked_ignores_rest (g : Grid) (n : Z) (rnd more : list Z)
    (g' : Grid) :
  generate_blocked g n rnd = Some (Returned g') →
  generate_blocked g n (rnd ++ more) = Some (Returned g').
Proof.
  unfold generate_blocked.
  destruct (n <=? 0); [done |].
  destruct (available g) as [avail |]; [| done]. simpl.
  destruct (avail <=? 0); [done |]. apply place_more.
Qed.

Lemma generate_blocked_ignores_rest_witness :
  generate_blocked grid_nook 2 ([0; 5; 3; 1] ++ [4; 0; 9; 9])
  = Some (Returned (mkGrid 2 3 [[false; false; true]; [false; true; true]])).
Proof. apply generate_blocked_ignores_rest. reflexivity. Defined.

(** X16: when the grid has a free cell and fewer cells are requested than
    are free, the grid [generate_blocked] returns still has a free cell, so
    [solve_path] prints a non-empty path on it for every budget
    [0 <= mp < INT_MAX]; every cell of that path is free in the new grid and
    was free in the old one. *)
Theorem generate_then_solve (g : Grid) (n : Z) (rnd : list Z) (g' : Grid)
    (mp : Z) :
  Grid_wf g → Forall (λ v, 0 <= v) rnd →
  Z.max 0 n < rows g * cols g - tally (blocked g) → 0 <= mp < INT_MAX →
  generate_blocked g n rnd = Some (Returned g') →
  ∃ rep, solve_path g' mp = Some rep
    ∧ path rep ≠ []
    ∧ ∀ q, q ∈ path rep → is_free g' q ∧ is_free g q.
Proof.
  intros Hwf Hrnd Hn Hmp Hret.
  destruct (generate_blocked_outcome g n rnd Hwf Hrnd)
    as (out & Hout & Hwf' & HR & HC & Hkeep & Hcount).
  rewrite Hret in Hout. injection Hout as <-. simpl in *.
  destruct (solve_path_cases g' Hwf' mp Hmp)
    as [[_ Hall] | (p & l & s & _ & -> & Ht & Hok)].
  { pose proof (tally_full g' Hwf' Hall) as Hfull. rewrite HR, HC in Hfull. lia. }
  eexists. split; [done |]. simpl. split; [by rewrite Ht |].
  intros q Hq%(ok_free _ _ _ Hok). split; [done |].
  destruct Hq as [Hin Hq]. unfold in_bounds in Hin. rewrite HR, HC in Hin.
  split; [done |].
  destruct (Grid_wf_readable g Hwf _ _ Hin) as [[] Hb]; [| done].
  specialize (Hkeep q Hb). unfold is_blocked in Hkeep. congruence.
Qed.

Lemma generate_then_solve_witness :
  ∃ rep,
    solve_path (mkGrid 2 3 [[false; false; true]; [false; true; true]]) 5 = Some rep
    ∧ path rep ≠ []
    ∧ ∀ q, q ∈ path rep →
        is_free (mkGrid 2 3 [[false; false; true]; [false; true; true]]) q
        ∧ is_free grid_nook q.
Proof.
  apply (generate_then_solve grid_nook 2 [0; 5; 3; 1]);
    [reflexivity | repeat constructor; lia | vm_compute; reflexivity
    | unfold INT_MAX; lia | reflexivity].
Defined.

(** ** The count of unique squares and the number of free cells *)

Lemma concat_lookup (m : matrix) (C : nat) :
  Forall (λ row, length row = C) m →
  ∀ i j row, m !! i = Some row → (j < C)%nat →
             concat m !! (i * C + j)%nat = row !! j.
Proof.
  induction 1 as [| row0 m Hrow0 _ IH]; intros i j row Hi Hj; [done |].
  simpl. destruct i as [| i]; simpl in Hi.
  - injection Hi as ->. by rewrite lookup_app_l by lia.
  - rewrite lookup_app_r by lia. rewrite Hrow0.
    replace (S i * C + j - C)%nat with (i * C + j)%nat by lia. by apply IH.
Qed.

(** Distinct positions that hold [false] are no more than the entries that
    are not [true]. *)
Lemma false_slots (L : list bool) :
  ∀ I : list nat,
    NoDup I → (∀ i, i ∈ I → L !! i = Some false) →
    Z.of_nat (length I) + ones L <= Z.of_nat (length L).
Proof.
  induction L as [| b L IH] using rev_ind; intros I Hnd Hall.
  - destruct I as [| i I]; [done |].
    specialize (Hall i (list_elem_of_here _ _)). done.
  - rewrite ones_app, length_app, ones_cons. simpl.
    assert (∀ J : list nat,
              (∀ i, i ∈ J → i ≠ length L ∧ (L ++ [b]) !! i = Some false) →
                 ∀ i, i ∈ J → L !! i = Some false) as Hshrink.
    { intros J HJ i Hi. destruct (HJ i Hi) as [Hne Hget].
      pose proof (lookup_lt_Some _ _ _ Hget) as Hlt.
      rewrite length_app in Hlt. simpl in Hlt.
      by rewrite lookup_app_l in Hget by lia. }
    destruct (decide (length L ∈ I)) as [Hin | Hnin].
    + pose proof (Hall _ Hin) as Hb.
      rewrite list_lookup_middle in Hb by done. injection Hb as ->.
      apply elem_of_Permutation in Hin as [J HJ].
      rewrite HJ in Hnd. rewrite (Permutation_length HJ). simpl.
      apply NoDup_cons in Hnd as [Hfresh Hnd].
      specialize (IH J Hnd). unfold ones at 2. simpl.
      assert (Z.of_nat (length J) + ones L <= Z.of_nat (length L)); [| lia].
      apply IH, Hshrink. intros i Hi. split.
      * intros ->. done.
      * apply Hall. rewrite HJ. by right.
    + assert (Z.of_nat (length I) + ones L <= Z.of_nat (length L)).
      { apply IH; [done |]. apply Hshrink. intros i Hi. split.
        - intros ->. done.
        - by apply Hall. }
      pose proof (ones_bound []). destruct b; unfold ones at 2; simpl; lia.
Qed.

Lemma free_cells_bound g (l : list (Z * Z)) :
  Grid_wf g → (∀ p, p ∈ l → is_free g p) →
  distinct l <= rows g * cols g - tally (blocked g).
Proof.
  intros Hwf Hfree.
  destruct (well_formed_shape g Hwf) as (HR & HC & Hshape).
  pose proof Hshape as [Hlen Hrows].
  assert (Forall (λ row : list bool, length row = Z.to_nat (cols g)) (blocked g))
    as Hrows'.
  { eapply Forall_impl; [done |]. simpl. lia. }
  set (S := list_to_set l : gset (Z * Z)).
  set (f := λ p : Z * Z, (Z.to_nat p.1 * Z.to_nat (cols g) + Z.to_nat p.2)%nat).
  assert (∀ p, p ∈ elements S → is_free g p) as HS.
  { intros p Hp. apply Hfree. by apply elem_of_elements, elem_of_list_to_set in Hp. }
  pose proof (false_slots (concat (blocked g)) (f <$> elements S)) as Hslots.
  rewrite length_fmap in Hslots.
  rewrite <- (length_concat_shape _ _ _ Hshape).
  unfold distinct, tally. fold S. unfold size, set_size. simpl.
  assert (Z.of_nat (length (elements S)) + ones (concat (blocked g))
          <= Z.of_nat (length (concat (blocked g)))); [| lia].
  apply Hslots.
  - apply NoDup_fmap_2_strong; [| apply NoDup_elements].
    intros [r c] [r' c'] [Hin%in_bounds_spec _]%HS [Hin'%in_bounds_spec _]%HS.
    unfold f. simpl in *. intros Heq.
    destruct (Nat.div_mod_unique (Z.to_nat (cols g)) (Z.to_nat r) (Z.to_nat r')
                (Z.to_nat c) (Z.to_nat c')) as [? ?]; [lia | lia | lia |].
    f_equal; lia.
  - intros i (p & -> & Hp)%list_elem_of_fmap.
    destruct (HS p Hp) as [Hin%in_bounds_spec Hcell].
    apply mget_unfold in Hcell as (_ & _ & row & Hrow & Hcell).
    unfold f. rewrite (concat_lookup _ _ Hrows' _ _ row Hrow); [done | lia].
Qed.

(** X17: for every budget [0 <= mp < INT_MAX] the printed count of unique
    squares never exceeds the number of free cells of the grid ([rows *
    cols] minus the number of blocked cells), and the printed path is at most
    twice that long. *)
Theorem unique_at_most_free (g : Grid) (mp : Z) :
  Grid_wf g → 0 <= mp < INT_MAX →
  ∃ rep, solve_path g mp = Some rep
    ∧ unique_squares rep <= rows g * cols g - tally (blocked g)
    ∧ Z.of_nat (length (path rep))
      <= 2 * (rows g * cols g - tally (blocked g)).
Proof.
  intros Hwf Hmp. pose proof (tally_bound g Hwf).
  destruct (solve_path_run g mp Hwf Hmp)
    as [(_ & _ & ->) | (p & s0 & s & _ & _ & _ & Ht & Hl & Hu & Hok0 & Hs & Hok & ->)].
  { eexists. split; [done |]. simpl. lia. }
  destruct (walk_thrifty g (mp + 1) (Z.to_nat mp) Hwf s0 Hok0)
    as (s' & Hs' & _ & Hthrift); [lia | left; lia |].
  assert (s' = s) as -> by congruence.
  eexists. split; [done |]. simpl.
  pose proof (free_cells_bound g (trail s) Hwf (ok_free _ _ _ Hok)) as Hfree.
  rewrite <- (ok_unique _ _ _ Hok) in Hfree.
  rewrite (pathLen_trail g (mp + 1) s Hok).
  split; [done |]. destruct Hthrift as [? | [? _]]; lia.
Qed.

Lemma unique_at_most_free_witness :
  ∃ rep, solve_path grid3 50 = Some rep
    ∧ unique_squares rep <= 3 * 3 - tally (blocked grid3)
    ∧ Z.of_nat (length (path rep)) <= 2 * (3 * 3 - tally (blocked grid3)).
Proof.
  apply (unique_at_most_free grid3 50); [reflexivity | unfold INT_MAX; lia].
Defined.
